(** * Disentanglement estimators of scrubvae, embedded from
    [src/ssumo/model/disentangle.py].

    Conventions of the embedding.
    - Tensor entries are elements of an ordered field [R] (exact arithmetic
      in place of float32); the concrete examples run over [rat].
    - Where the source can produce a NaN out of finite inputs (a mean or a
      covariance over zero rows), entries are [fl R = option R] with [None]
      for NaN, and arithmetic propagates it as IEEE arithmetic does.
    - Python exceptions are the [Raise] results of a small error monad.
    - A Euclidean or Frobenius norm is carried by its radicand: [Sqrt r]
      stands for the non-negative root of [r]. *)

From HB Require Import structures.
From Stdlib Require Import Ascii String DecimalString.
From mathcomp Require Import ssreflect ssrfun ssrbool eqtype ssrnat seq path.
From mathcomp Require Import div choice.
From mathcomp Require Import fintype bigop binomial order ssralg ssrnum ssrint.
From mathcomp Require Import archimedean rat matrix lra.

Set Implicit Arguments.
Unset Strict Implicit.
Unset Printing Implicit Defensive.

Import GRing.Theory Num.Theory Order.Theory.
Local Open Scope ring_scope.

(** ** Python exceptions and the error monad *)

Variant exn : Type :=
  | AttributeError (* cannot assign buffer before Module.__init__() call *)
  | LinAlgError    (* torch.linalg.solve on a singular matrix *)
  | ZeroDivisionError
  | RuntimeError.

Variant result (A : Type) : Type :=
  | Ok (a : A)
  | Raise (e : exn).
Arguments Ok {A} a.
Arguments Raise {A} e.

Definition bind {A B : Type} (c : result A) (k : A -> result B) : result B :=
  match c with
  | Ok a => k a
  | Raise e => Raise e
  end.

Notation "x <- c ;; k" := (bind c (fun x => k))
  (at level 100, c at next level, right associativity).

Definition raises {A : Type} (c : result A) : bool :=
  if c is Raise _ then true else false.

(** ** GradientReversal (a torch.autograd.Function) *)

Module GradientReversal.
Section Defs.
Variable R : realFieldType.

(** A tensor by its entries in storage order; [alpha] is a 0-dim tensor. *)
Definition tensor := seq R.

(** The autograd context: what [save_for_backward] stored, and the flags
    the engine sets for the two inputs [(x, alpha)]. *)
Record ctx := Ctx {
  needs_input_grad : bool * bool;
  saved_tensors : tensor * R
}.

Definition forward (needs : bool * bool) (x : tensor) (alpha : R)
  : ctx * tensor :=
  (Ctx needs (x, alpha), x).

Definition backward (c : ctx) (grad_output : tensor)
  : option tensor * option R :=
  let grad_input := None in
  let: (_, alpha) := saved_tensors c in
  let grad_input :=
    if (needs_input_grad c).1
    then Some [seq (- alpha) * g | g <- grad_output]
    else grad_input in
  (grad_input, None).

(** [revgrad = GradientReversal.apply]: the engine runs [forward] on a
    fresh context and keeps the context for the backward pass. *)
Definition revgrad := forward.

End Defs.
End GradientReversal.

Module GradientReversalLayer.
Section Defs.
Variable R : realFieldType.

Record t := Build { alpha : R }.

(** [torch.tensor(alpha, requires_grad=False)]. *)
Definition __init__ (a : R) : t := Build a.

(** [x_requires_grad] is the flag of the incoming tensor; [alpha] never
    requires a gradient. *)
Definition forward (self : t) (x_requires_grad : bool)
    (x : GradientReversal.tensor R) :=
  GradientReversal.revgrad (x_requires_grad, false) x (alpha self).

End Defs.
End GradientReversalLayer.

(** ** Network descriptors used by the adversarial branches *)

Module nn.
Section Layers.
Variable R : realFieldType.

(** The modules an [nn.Sequential] is built from; [NoModule] is the [None]
    the source passes for an absent [Tanh]. *)
Inductive layer : Type :=
  | GRL (l : GradientReversalLayer.t R)
  | LinearLayer (in_features out_features : nat) (bias : bool)
  | ReLU
  | Tanh
  | NoModule
  | Ensemble (branches : seq (seq layer)).

Definition Sequential := seq layer.

Definition MLP (in_dim out_dim : nat) : Sequential :=
  [:: LinearLayer in_dim in_dim true; ReLU;
      LinearLayer in_dim in_dim true; ReLU;
      LinearLayer in_dim out_dim true].

Definition MLPEnsemble (in_dim out_dim n_models : nat) : layer :=
  Ensemble [seq MLP in_dim out_dim | _ <- iota 0 n_models].

(** [ReversalEnsemble]: the four sub-networks in the order of their
    definition; [forward] runs the last three. *)
Definition ReversalEnsemble (in_dim out_dim : nat) (bound : bool) : layer :=
  let tanh := if bound then Tanh else NoModule in
  let lin := [:: LinearLayer in_dim out_dim true; tanh] in
  let mlp1 := [:: LinearLayer in_dim in_dim true; ReLU;
                  LinearLayer in_dim in_dim true; ReLU;
                  LinearLayer in_dim out_dim true; tanh] in
  let mlp2 := [:: LinearLayer in_dim in_dim true; ReLU;
                  LinearLayer in_dim out_dim true; tanh] in
  let mlp3 := [:: LinearLayer in_dim in_dim true; ReLU;
                  LinearLayer in_dim (in_dim %/ 2)%N true; ReLU;
                  LinearLayer (in_dim %/ 2)%N out_dim true; tanh] in
  Ensemble [:: lin; mlp1; mlp2; mlp3].

End Layers.

Section Linear.
Variable R : realFieldType.
Variables in_features out_features : nat.

(** [nn.Linear]: [weight] is [out_features x in_features]; [bias] is
    absent when the layer is built with [bias=False]. *)
Record Linear := BuildLinear {
  weight : 'M[R]_(out_features, in_features);
  bias : option 'rV[R]_out_features
}.

(** The bias row added to every sample of the batch. *)
Definition bias_rows (batch : nat) (self : Linear)
  : 'M[R]_(batch, out_features) :=
  if bias self is Some b then \matrix_(i, j) b 0 j else 0.

Definition Linear_forward (batch : nat) (self : Linear)
    (z : 'M[R]_(batch, in_features)) : 'M[R]_(batch, out_features) :=
  z *m (weight self)^T + bias_rows batch self.

End Linear.
End nn.

(** ** torch.linalg.solve on exact matrices *)

Module linalg.
Section Solve.
Variable R : realFieldType.

(** [solve A B] is the [X] with [A X = B]; a singular [A] raises. *)
Definition solve (n p : nat) (A : 'M[R]_n) (B : 'M[R]_(n, p))
  : result 'M[R]_(n, p) :=
  if A \in unitmx then Ok (invmx A *m B) else Raise LinAlgError.

End Solve.
End linalg.

(** ** LinearProjection *)

Module LinearProjection.
Section Defs.
Variable R : realFieldType.
Variables in_dim out_dim : nat.

Record t := Build { decoder : nn.Linear R in_dim out_dim }.

Record data_o (batch : nat) := Out {
  v : 'M[R]_(batch, out_dim);
  z_null : 'M[R]_(batch, in_dim)
}.

(** [nn.Linear] draws its parameters at random: they are the arguments
    [w] and [b] here, [b] being used only when [bias] is set. *)
Definition __init__ (bias : bool) (w : 'M[R]_(out_dim, in_dim))
    (b : 'rV[R]_out_dim) : t :=
  Build (nn.BuildLinear w (if bias then Some b else None)).

Definition forward (batch : nat) (self : t) (z : 'M[R]_(batch, in_dim))
  : result (data_o batch) :=
  let x := nn.Linear_forward (decoder self) z in
  let w := nn.weight (decoder self) in
  let nrm := w *m w^T in
  s <- linalg.solve nrm x^T ;;
  let z_null := z - s^T *m w in
  Ok (Out x z_null).

End Defs.
End LinearProjection.

(** ** LinearDisentangle *)

Module LinearDisentangle.
Section Defs.
Variable R : realFieldType.
Variables in_dim out_dim : nat.

Record t := Build {
  do_detach : bool;
  decoder : nn.Linear R in_dim out_dim;
  reversal : option (nn.Sequential R)
}.

Definition __init__ (bias : bool) (reversal : string) (alpha : R)
    (do_detach : bool) (n_models : option nat)
    (w : 'M[R]_(out_dim, in_dim)) (b : 'rV[R]_out_dim) : result t :=
  let decoder := nn.BuildLinear w (if bias then Some b else None) in
  let grl := nn.GRL (GradientReversalLayer.__init__ alpha) in
  let reversal :=
    if String.eqb reversal "mlp" then
      Some [:: grl;
               nn.LinearLayer R in_dim in_dim true; nn.ReLU R;
               nn.LinearLayer R in_dim in_dim true; nn.ReLU R;
               nn.LinearLayer R in_dim out_dim true]
    else if String.eqb reversal "linear" then
      Some [:: grl; nn.LinearLayer R in_dim out_dim true]
    else if String.eqb reversal "ensemble" then
      if (n_models == None) || (n_models == Some 0%N) then
        Some [:: grl; nn.ReversalEnsemble R in_dim out_dim false]
      else
        Some [:: grl; nn.MLPEnsemble R in_dim out_dim (odflt 0%N n_models)]
    else None in
  Ok (Build do_detach decoder reversal).

Section Forward.
(** The output of the adversarial branch on a batch; the branch's own
    parameters are random draws and stay abstract. *)
Variable gr_out : Type.
Variable run : nn.Sequential R -> forall batch, 'M[R]_(batch, in_dim) -> gr_out.

Record data_o (batch : nat) := Out {
  v : 'M[R]_(batch, out_dim);
  mu_null : 'M[R]_(batch, in_dim);
  gr : option gr_out
}.

Definition forward (batch : nat) (self : t) (z : 'M[R]_(batch, in_dim))
  : result (data_o batch) :=
  let x := nn.Linear_forward (decoder self) z in
  let w := nn.weight (decoder self) in
  let nrm := w *m w^T in
  s <- linalg.solve nrm x^T ;;
  let z_null := z - s^T *m w in
  let gr := if reversal self is Some net then Some (run net z_null)
            else None in
  Ok (Out x z_null gr).

End Forward.
End Defs.
End LinearDisentangle.

(** ** nn.Module: the part of the base class the trackers rely on *)

Module nn_Module.

(** [_buffers] is absent from the instance dictionary until
    [nn.Module.__init__] has run; afterwards it lists the registered
    buffer names (the buffers' values are fields of each tracker). *)
Record t := Build { _buffers : option (seq string) }.

(** The instance as [object.__new__] leaves it. *)
Definition __new__ : t := Build None.

(** [nn.Module.__init__], reached through [super().__init__()]. *)
Definition __init__ (self : t) : t := Build (Some [::]).

(** [register_buffer]: refuses to work before [nn.Module.__init__]. *)
Definition register_buffer (self : t) (name : string) : result t :=
  if _buffers self is Some names then Ok (Build (Some (name :: names)))
  else Raise AttributeError.

End nn_Module.

(** ** Tensors with NaN *)

Module torch.
Section Float.
Variable R : realFieldType.

(** A float: [None] is NaN. *)
Definition fl := option R.
Definition NaN : fl := None.
Definition Fin (r : R) : fl := Some r.

Definition fadd (a b : fl) : fl :=
  if a is Some x then if b is Some y then Some (x + y) else None else None.
Definition fsub (a b : fl) : fl :=
  if a is Some x then if b is Some y then Some (x - y) else None else None.
Definition fmul (a b : fl) : fl :=
  if a is Some x then if b is Some y then Some (x * y) else None else None.

(** Comparisons with a NaN operand are false. *)
Definition flt (a b : fl) : bool :=
  if a is Some x then if b is Some y then x < y else false else false.

Definition vec := seq fl.
Definition mat := seq (seq fl).

Definition vadd (u v : vec) : vec := [seq fadd p.1 p.2 | p <- zip u v].
Definition vsub (u v : vec) : vec := [seq fsub p.1 p.2 | p <- zip u v].
Definition vmul (u v : vec) : vec := [seq fmul p.1 p.2 | p <- zip u v].
Definition vscale (a : fl) (v : vec) : vec := [seq fmul a e | e <- v].
Definition madd (A B : mat) : mat := [seq vadd p.1 p.2 | p <- zip A B].
Definition mscale (a : fl) (A : mat) : mat := [seq vscale a r | r <- A].

Definition fsum (v : vec) : fl := foldr fadd (Fin 0) v.

Definition zeros (n m : nat) : mat := nseq n (nseq m (Fin 0)).
Definition eye (n : nat) : mat :=
  [seq [seq Fin (i == j)%:R | j <- iota 0 n] | i <- iota 0 n].

(** [torch.linalg.norm]: the root of the sum of the squared entries. *)
Record norm_val := Sqrt { radicand : fl }.
Definition linalg_norm (v : vec) : norm_val :=
  Sqrt (fsum [seq fmul e e | e <- v]).
(** Roots compare as their radicands do. *)
Definition norm_lt (a b : norm_val) : bool := flt (radicand a) (radicand b).

(** [np.clip] and [torch.clamp]. *)
Definition clip (a a_min a_max : R) : R := Num.min (Num.max a a_min) a_max.

(** [x[sel]] for a boolean selector over the rows. *)
Definition rows_where (sel : seq bool) (x : mat) : mat := mask sel x.

(** [torch.mean(rows, axis=0)] of a tensor of shape [(n, nx)]: the mean
    over zero rows is NaN in every column. *)
Definition mean0 (nx : nat) (rows : mat) : vec :=
  if rows is [::] then nseq nx NaN
  else [seq fmul (Fin (size rows)%:R^-1) (fsum [seq nth NaN r j | r <- rows])
       | j <- iota 0 nx].

(** [torch.cov(rows.T, correction=0)]: NaN everywhere over zero rows. *)
Definition cov0 (nx : nat) (rows : mat) : mat :=
  if rows is [::] then nseq nx (nseq nx NaN)
  else
    let avg := mean0 nx rows in
    let centred := [seq vsub r avg | r <- rows] in
    [seq [seq fmul (Fin (size rows)%:R^-1)
            (fsum [seq fmul (nth NaN r j) (nth NaN r k) | r <- centred])
         | k <- iota 0 nx]
    | j <- iota 0 nx].

(** [u[..., None] - u[..., None, :]] on one row: entry [(j, k)] is
    [u[j] - u[k]]. *)
Definition outer_sub (u : vec) : mat :=
  [seq [seq fsub uj uk | uk <- u] | uj <- u].

(** [torch.diagonal(A, dim1=-1, dim2=-2, offset)] on the last two axes of
    a tensor, for [0 <= offset]: entry [i] has index [i] on [dim1] (the
    last axis) and [i + offset] on [dim2] (the axis before it). *)
Definition diagonal (offset : nat) (A : mat) : vec :=
  [seq nth NaN (nth [::] A (i + offset)) i
  | i <- iota 0 (minn (size (head [::] A)) (size A - offset))].

Definition fprod (v : vec) : fl := foldr fmul (Fin 1) v.
Definition dot (u v : vec) : fl := fsum (vmul u v).

Definition transpose (A : mat) : mat :=
  [seq [seq nth NaN r j | r <- A] | j <- iota 0 (size (head [::] A))].

(** [A.T @ B] for [A] of shape [(batch, n)] and [B] of shape
    [(batch, p)]. *)
Definition matmul_T (n p : nat) (A B : mat) : mat :=
  [seq [seq fsum [seq fmul (nth NaN r.1 j) (nth NaN r.2 k) | r <- zip A B]
       | k <- iota 0 p]
  | j <- iota 0 n].

(** [A @ B]. *)
Definition matmul (A B : mat) : mat :=
  [seq [seq dot r c | c <- transpose B] | r <- A].

(** [torch.column_stack] of blocks of [batch] rows each. *)
Definition column_stack (batch : nat) (blocks : seq mat) : mat :=
  [seq flatten [seq nth [::] b k | b <- blocks] | k <- iota 0 batch].

End Float.

(** [torch.combinations(idx, r, with_replacement=True)] on a non-empty
    index vector: the [r]-tuples in the order of
    [itertools.combinations_with_replacement]. *)
Fixpoint combinations (T : Type) (r : nat) (idx : seq T) : seq (seq T) :=
  match r with
  | 0%N => [:: [::]]
  | r'.+1 =>
      (fix tails (s : seq T) : seq (seq T) :=
         match s with
         | [::] => [::]
         | a :: s' => [seq a :: c | c <- combinations r' s] ++ tails s'
         end) idx
  end.

End torch.

(** ** MovingAverageFilter *)

Module MovingAverageFilter.
Section Defs.
Variable R : realFieldType.
Variable label : eqType.
Notation fl := (torch.fl R).
Notation vec := (torch.vec R).
Notation mat := (torch.mat R).

Record t := Build {
  base : nn_Module.t;
  classes : seq label;
  m1 : mat;
  m2 : mat;
  lam1 : seq R;
  lam2 : seq R;
  delta : R;
  lamdiff : R
}.

(** The initializer as written: no [super().__init__()] precedes the
    first [register_buffer]. *)
Definition __init__ (self : nn_Module.t) (nx : nat) (classes : seq label)
    (lamdiff delta : R) : result t :=
  let m1 := torch.zeros R (size classes) nx in
  self <- nn_Module.register_buffer self "m1" ;;
  let m2 := torch.zeros R (size classes) nx in
  self <- nn_Module.register_buffer self "m2" ;;
  let lam1 := [seq one * 2%:R^-1 | one <- nseq (size classes) 1] in
  self <- nn_Module.register_buffer self "lam1" ;;
  let lam2 := [seq l + lamdiff | l <- lam1] in
  self <- nn_Module.register_buffer self "lam2" ;;
  Ok (Build self classes m1 m2 lam1 lam2 delta lamdiff).

(** [MovingAverageFilter(nx, classes, lamdiff, delta)]. *)
Definition construct (nx : nat) (classes : seq label) (lamdiff delta : R)
  : result t :=
  __init__ nn_Module.__new__ nx classes lamdiff delta.

Definition forward (self : t) (mu : mat) : nat := 0%N.

(** The empirical mean of class [lbl] on the batch: the batch has as many
    columns as the accumulators. *)
Definition xbar_of (self : t) (x : mat) (y : seq label) (i : nat)
    (lbl : label) : vec :=
  torch.mean0 (size (nth [::] (m1 self) i))
    (torch.rows_where [seq yk == lbl | yk <- y] x).

(** One pass of the loop body of [evaluate_loss], for [(i, label)]. *)
Definition class_step (x : mat) (y : seq label) (self : t)
    (il : nat * label) : t :=
  let: (i, lbl) := il in
  let xbar := xbar_of self x y i lbl in
  let d1 := torch.linalg_norm (torch.vsub xbar (nth [::] (m1 self) i)) in
  let d2 := torch.linalg_norm (torch.vsub xbar (nth [::] (m2 self) i)) in
  let: (l1, l2) :=
    if torch.norm_lt d1 d2 then
      let l1 := set_nth 0 (lam1 self) i
                  (torch.clip (nth 0 (lam1 self) i - delta self) 0 1) in
      let l2 := set_nth 0 (lam2 self) i (nth 0 l1 i + lamdiff self) in
      (l1, l2)
    else
      let l2 := set_nth 0 (lam2 self) i
                  (torch.clip (nth 0 (lam2 self) i + delta self) 0 1) in
      let l1 := set_nth 0 (lam1 self) i (nth 0 l2 i - lamdiff self) in
      (l1, l2) in
  let m1i := nth [::] (m1 self) i in
  let m2i := nth [::] (m2 self) i in
  let m1' := set_nth [::] (m1 self) i
    (torch.vadd (torch.vscale (torch.Fin (1 - nth 0 l1 i)) xbar)
                (torch.vscale (torch.Fin (nth 0 l1 i)) m1i)) in
  let m2' := set_nth [::] (m2 self) i
    (torch.vadd (torch.vscale (torch.Fin (1 - nth 0 l2 i)) xbar)
                (torch.vscale (torch.Fin (nth 0 l2 i)) m2i)) in
  Build (base self) (classes self) m1' m2' l1 l2 (delta self) (lamdiff self).

Definition enumerate (s : seq label) : seq (nat * label) :=
  zip (iota 0 (size s)) s.

Definition mean_estimate (self : t) : mat :=
  torch.mscale (torch.Fin 2%:R^-1) (torch.madd (m1 self) (m2 self)).

(** [evaluate_loss]: the instance after the call and the returned norm. *)
Definition evaluate_loss (self : t) (x : mat) (y : seq label)
  : t * torch.norm_val R :=
  let self := foldl (class_step x y) self (enumerate (classes self)) in
  let d := [seq torch.diagonal 1 (torch.outer_sub row)
           | row <- mean_estimate self] in
  (self, torch.linalg_norm (flatten d)).

(** [update]: [detach] changes no value. *)
Definition update (self : t) : t :=
  Build (base self) (classes self) (m1 self) (m2 self)
        (lam1 self) (lam2 self) (delta self) (lamdiff self).

(** A history of calls on one instance. *)
Variant call : Type :=
  | EvaluateLoss (x : mat) (y : seq label)
  | Update.

Definition do_call (self : t) (c : call) : t :=
  match c with
  | EvaluateLoss x y => (evaluate_loss self x y).1
  | Update => update self
  end.

Definition run (self : t) (calls : seq call) : t := foldl do_call self calls.

End Defs.
End MovingAverageFilter.


(** ** QuadraticDiscriminantFilter *)

Module QuadraticDiscriminantFilter.
Section Defs.
Variable R : realFieldType.
Variable label : eqType.
Notation fl := (torch.fl R).
Notation vec := (torch.vec R).
Notation mat := (torch.mat R).

(** Library functions the scores go through: [torch.logdet],
    [torch.linalg.solve] on tensors with NaN, and [str] of a label. *)
Variable logdet : mat -> fl.
Variable linalg_solve : mat -> mat -> result mat.
Variable str : label -> string.

(** The ten buffers registered for one label: [m0a_l], ..., [S1b_l],
    [lama_l], [lamb_l]. *)
Record params := Params {
  m0a : mat; m1a : mat; m0b : mat; m1b : mat;
  S0a : mat; S1a : mat; S0b : mat; S1b : mat;
  lama : R; lamb : R
}.

(** Labels print to distinct buffer names, so the attributes are kept
    by label. *)
Record t := Build {
  base : nn_Module.t;
  classes : seq label;
  bufs : label -> option params;
  delta : R;
  lamdiff : R
}.

Definition setattrs (b : label -> option params) (l : label) (p : params)
  : label -> option params :=
  fun l' => if l' == l then Some p else b l'.

Definition foldM {A B : Type} (f : A -> B -> result A) (a : A) (s : seq B)
  : result A :=
  foldl (fun acc b => a' <- acc ;; f a' b) (Ok a) s.

Definition param_names : seq string :=
  [:: "m0a"; "m1a"; "m0b"; "m1b"; "S0a"; "S1a"; "S0b"; "S1b"]%string.

(** ["m" in name] and ["S" in name]. *)
Fixpoint occurs (c : ascii) (name : string) : bool :=
  if name is String a rest then Ascii.eqb a c || occurs c rest else false.

(** The value a buffer is registered with, by its name:
    [torch.zeros(nx)[None, :]] or [torch.eye(nx)]. *)
Definition initial_buffer (nx : nat) (name : string) : mat :=
  if occurs "m" name then torch.zeros R 1 nx
  else if occurs "S" name then torch.eye R nx
  else [::].

Definition initial_params (nx : nat) (lama lamb : R) : params :=
  Params (initial_buffer nx "m0a") (initial_buffer nx "m1a")
         (initial_buffer nx "m0b") (initial_buffer nx "m1b")
         (initial_buffer nx "S0a") (initial_buffer nx "S1a")
         (initial_buffer nx "S0b") (initial_buffer nx "S1b")
         lama lamb.

(** The body of the loop over the labels in the initializer. *)
Definition register_label (nx : nat) (lamdiff : R)
    (st : nn_Module.t * (label -> option params)) (l : label)
  : result (nn_Module.t * (label -> option params)) :=
  self <- foldM (fun self name =>
                   nn_Module.register_buffer self (name ++ "_" ++ str l))
                st.1 param_names ;;
  let lama := 2%:R / 10%:R in
  self <- nn_Module.register_buffer self ("lama_" ++ str l) ;;
  let lamb := lama + lamdiff in
  self <- nn_Module.register_buffer self ("lamb_" ++ str l) ;;
  Ok (self, setattrs st.2 l (initial_params nx lama lamb)).

Definition __init__ (self : nn_Module.t) (nx : nat) (classes : seq label)
    (lamdiff delta : R) : result t :=
  let self := nn_Module.__init__ self in
  st <- foldM (register_label nx lamdiff) (self, fun _ => None) classes ;;
  Ok (Build st.1 classes st.2 delta lamdiff).

Definition construct (nx : nat) (classes : seq label) (lamdiff delta : R)
  : result t :=
  __init__ nn_Module.__new__ nx classes lamdiff delta.

Definition forward (self : t) (mu : mat) : nat := 0%N.

(** [cgll]: the Gaussian log likelihood of every row of [x]. *)
Definition cgll (x m S : mat) : result vec :=
  let xm := [seq torch.vsub r (head [::] m) | r <- x] in
  sol <- linalg_solve S (torch.transpose xm) ;;
  let resids := [seq torch.fsum (torch.vmul p.1 p.2)
                | p <- zip xm (torch.transpose sol)] in
  Ok [seq torch.fmul (torch.Fin (- 2%:R^-1)) (torch.fadd (logdet S) r)
     | r <- resids].

(** [(1 - lam) * current + lam * empirical]. *)
Definition blend (lam : R) (current empirical : mat) : mat :=
  let forgetting := torch.mscale (torch.Fin (1 - lam)) current in
  let updating := torch.mscale (torch.Fin lam) empirical in
  torch.madd forgetting updating.

(** The empirical statistics of one label on the batch; the batch has as
    many columns as the covariance buffers have rows. *)
Definition empirical_m (p : params) (sel : seq bool) (x : mat) : mat :=
  [:: torch.mean0 (size (S0a p)) (torch.rows_where sel x)].
Definition empirical_S (p : params) (sel : seq bool) (x : mat) : mat :=
  torch.cov0 (size (S0a p)) (torch.rows_where sel x).

(** The loop body of [update] on the buffers of [lbl]; each of the eight
    assignments reads only its own buffer and the two factors. *)
Definition update_params (x : mat) (y : seq label) (lbl : label)
    (p : params) : params :=
  let i0 := [seq yk != lbl | yk <- y] in
  let i1 := [seq yk == lbl | yk <- y] in
  let e_m0 := empirical_m p i0 x in
  let e_m1 := empirical_m p i1 x in
  let e_S0 := empirical_S p i0 x in
  let e_S1 := empirical_S p i1 x in
  Params (blend (lama p) (m0a p) e_m0) (blend (lama p) (m1a p) e_m1)
         (blend (lamb p) (m0b p) e_m0) (blend (lamb p) (m1b p) e_m1)
         (blend (lama p) (S0a p) e_S0) (blend (lama p) (S1a p) e_S1)
         (blend (lamb p) (S0b p) e_S0) (blend (lamb p) (S1b p) e_S1)
         (lama p) (lamb p).

(** [getattr] of an unregistered name raises. *)
Definition update_label (x : mat) (y : seq label) (self : t) (lbl : label)
  : result t :=
  if bufs self lbl is Some p then
    Ok (Build (base self) (classes self)
              (setattrs (bufs self) lbl (update_params x y lbl p))
              (delta self) (lamdiff self))
  else Raise AttributeError.

(** [update]: the instance as the call leaves it, and whether it
    returned. *)
Fixpoint update_loop (x : mat) (y : seq label) (self : t)
    (ls : seq label) : t * result unit :=
  match ls with
  | [::] => (self, Ok tt)
  | l :: ls' =>
      match update_label x y self l with
      | Ok self' => update_loop x y self' ls'
      | Raise e => (self, Raise e)
      end
  end.

Definition update (self : t) (x : mat) (y : seq label) : t * result unit :=
  update_loop x y self (classes self).

(** The four score vectors of one label. *)
Definition scores (x : mat) (p : params) : result (vec * vec * vec * vec) :=
  lla0 <- cgll x (m0a p) (S0a p) ;;
  lla1 <- cgll x (m1a p) (S1a p) ;;
  llb0 <- cgll x (m0b p) (S0b p) ;;
  llb1 <- cgll x (m1b p) (S1b p) ;;
  Ok (lla0, lla1, llb0, llb1).

(** The adaptation of the two factors of one label. *)
Definition adapt (upd : bool) (delta lamdiff : R) (lla llb : fl)
    (p : params) : params :=
  if upd && torch.flt llb lla then
    let la := torch.clip (lama p - delta) 0 1 in
    Params (m0a p) (m1a p) (m0b p) (m1b p) (S0a p) (S1a p) (S0b p) (S1b p)
           la (la + lamdiff)
  else if upd then
    let lb := torch.clip (lamb p + delta) 0 1 in
    Params (m0a p) (m1a p) (m0b p) (m1b p) (S0a p) (S1a p) (S0b p) (S1b p)
           (lb - lamdiff) lb
  else p.

(** One pass of the loop of [evaluate_loss]. *)
Definition loss_label (x : mat) (y : seq label) (upd : bool) (self : t)
    (ll_loss : fl) (lbl : label) : t * result fl :=
  let i0 := [seq torch.Fin (yk != lbl)%:R | yk <- y] in
  let i1 := [seq torch.Fin (yk == lbl)%:R | yk <- y] in
  if bufs self lbl is Some p then
    match scores x p with
    | Raise e => (self, Raise e)
    | Ok (lla0, lla1, llb0, llb1) =>
        let lla :=
          torch.fsum (torch.vadd (torch.vmul i0 lla0) (torch.vmul i1 lla1)) in
        let llb :=
          torch.fsum (torch.vadd (torch.vmul i0 llb0) (torch.vmul i1 llb1)) in
        let p' := adapt upd (delta self) (lamdiff self) lla llb p in
        let batch_y :=
          [seq torch.fsub (torch.fmul b (torch.Fin 2%:R)) (torch.Fin 1)
          | b <- i1] in
        let llra := torch.dot batch_y (torch.vsub lla1 lla0) in
        let llrb := torch.dot batch_y (torch.vsub llb1 llb0) in
        (Build (base self) (classes self) (setattrs (bufs self) lbl p')
               (delta self) (lamdiff self),
         Ok (torch.fadd ll_loss
               (torch.fmul (torch.fadd llra llrb) (torch.Fin 2%:R^-1))))
    end
  else (self, Raise AttributeError).

Fixpoint loss_loop (x : mat) (y : seq label) (upd : bool) (self : t)
    (ll_loss : fl) (ls : seq label) : t * result fl :=
  match ls with
  | [::] => (self, Ok ll_loss)
  | l :: ls' =>
      match loss_label x y upd self ll_loss l with
      | (self', Ok ll) => loss_loop x y upd self' ll ls'
      | (self', Raise e) => (self', Raise e)
      end
  end.

(** [evaluate_loss]: the instance as the call leaves it, and the value
    returned or the exception raised. *)
Definition evaluate_loss (self : t) (x : mat) (y : seq label) (upd : bool)
  : t * result fl :=
  let: (self', r) := loss_loop x y upd self (torch.Fin 0) (classes self) in
  (self',
   ll_loss <- r ;;
   if size (classes self) is 0%N then Raise ZeroDivisionError
   else Ok (torch.fmul ll_loss (torch.Fin (size (classes self))%:R^-1))).

(** A history of calls on one instance; a call that raises leaves the
    instance as it was when the exception left it. *)
Variant call : Type :=
  | EvaluateLoss (x : mat) (y : seq label) (upd : bool)
  | Update (x : mat) (y : seq label).

Definition do_call (self : t) (c : call) : t :=
  match c with
  | EvaluateLoss x y upd => (evaluate_loss self x y upd).1
  | Update x y => (update self x y).1
  end.

Definition run (self : t) (calls : seq call) : t := foldl do_call self calls.

End Defs.
End QuadraticDiscriminantFilter.

(** ** MovingAvgLeastSquares *)

Module MovingAvgLeastSquares.
Section Defs.
Variable R : realFieldType.
Notation fl := (torch.fl R).
Notation vec := (torch.vec R).
Notation mat := (torch.mat R).
Notation NaN := (torch.NaN R).

(** [torch.linalg.solve] on tensors with NaN, used by [forward]. *)
Variable linalg_solve : mat -> mat -> result mat.

Record t := Build {
  base : nn_Module.t;
  bias : bool;
  polynomial_order : int;
  Sxx0 : mat; Sxy0 : mat;
  Sxx1 : mat; Sxy1 : mat;
  lam0 : R; lam1 : R;
  delta : R; lamdiff : R
}.

(** [range(1, stop)]. *)
Definition range1 (stop : int) : seq nat :=
  if stop is Posz n then iota 1 (n - 1) else [::].

(** [int(q)]: truncation toward zero. *)
Definition py_int (q : rat) : int :=
  if 0 <= q then Num.floor q else Num.ceil q.

(** The accumulation of [nx_poly] in the initializer: the products are
    integer tensors and [/] is true division. *)
Definition prod (s : seq nat) : nat := foldr muln 1%N s.

Definition nx_poly (nx : nat) (polynomial_order : int) : rat :=
  foldl (fun nx_poly i =>
           nx_poly + (prod (iota nx i))%:R
                     / (prod [seq j + 1 | j <- iota 0 i]%N)%:R)
        0 (range1 (polynomial_order + 1)).

Definition __init__ (self : nn_Module.t) (nx ny : nat) (lamdiff delta : R)
    (bias : bool) (polynomial_order : int) : result t :=
  let self := nn_Module.__init__ self in
  match py_int (nx_poly nx polynomial_order) + (bias : nat)%:Z with
  | Negz _ => Raise RuntimeError
  | Posz nx =>
      let Sxx0 := torch.eye R nx in
      self <- nn_Module.register_buffer self "Sxx0" ;;
      let Sxy0 := torch.zeros R nx ny in
      self <- nn_Module.register_buffer self "Sxy0" ;;
      let Sxx1 := torch.eye R nx in
      self <- nn_Module.register_buffer self "Sxx1" ;;
      let Sxy1 := torch.zeros R nx ny in
      self <- nn_Module.register_buffer self "Sxy1" ;;
      let lam0 := 9%:R / 10%:R in
      self <- nn_Module.register_buffer self "lam0" ;;
      let lam1 := lam0 + lamdiff in
      self <- nn_Module.register_buffer self "lam1" ;;
      Ok (Build self bias polynomial_order Sxx0 Sxy0 Sxx1 Sxy1
                lam0 lam1 delta lamdiff)
  end.

Definition construct (nx ny : nat) (lamdiff delta : R) (bias : bool)
    (polynomial_order : int) : result t :=
  __init__ nn_Module.__new__ nx ny lamdiff delta bias polynomial_order.

(** [x[:, C_idx].prod(dim=-1)]. *)
Definition products (x : mat) (C_idx : seq (seq nat)) : mat :=
  [seq [seq torch.fprod [seq nth NaN r j | j <- c] | c <- C_idx] | r <- x].

Definition polynomial_expansion (self : t) (x : mat) : mat :=
  let x_list := [:: x] in
  let idx := iota 0 (size (head [::] x)) in
  let x_list :=
    x_list ++ [seq products x (torch.combinations (i + 1) idx)
              | i <- range1 (polynomial_order self)] in
  torch.column_stack (size x) x_list.

(** The expanded batch with its optional column of ones. *)
Definition design (self : t) (x : mat) : mat :=
  let x := polynomial_expansion self x in
  if bias self
  then torch.column_stack (size x) [:: x; nseq (size x) [:: torch.Fin 1]]
  else x.

(** [forward]: the two predictions of the solved decoders. *)
Definition forward (self : t) (x : mat) : result (mat * mat) :=
  let x := design self x in
  W0 <- linalg_solve (Sxx0 self) (Sxy0 self) ;;
  W1 <- linalg_solve (Sxx1 self) (Sxy1 self) ;;
  let yhat0 := torch.matmul x W0 in
  let yhat1 := torch.matmul x W1 in
  Ok (yhat0, yhat1).

(** [update]: the batch has as many expanded columns as [Sxx0] has rows,
    and [y] as many columns as [Sxy0]. *)
Definition update (self : t) (x y : mat) : t :=
  let x := design self x in
  let n := size (Sxx0 self) in
  let ny := size (head [::] (Sxy0 self)) in
  let xx := torch.matmul_T n n x x in
  let xy := torch.matmul_T n ny x y in
  let times lam S := torch.mscale (torch.Fin lam) S in
  let Sxx0' := torch.madd (times (lam0 self) (Sxx0 self)) xx in
  let Sxy0' := torch.madd (times (lam0 self) (Sxy0 self)) xy in
  let Sxx1' := torch.madd (times (lam1 self) (Sxx1 self)) xx in
  let Sxy1' := torch.madd (times (lam1 self) (Sxy1 self)) xy in
  Build (base self) (bias self) (polynomial_order self)
        Sxx0' Sxy0' Sxx1' Sxy1' (lam0 self) (lam1 self)
        (delta self) (lamdiff self).

(** [mse_loss(y, yhat, reduction="sum")]. *)
Definition mse_sum (y yhat : mat) : fl :=
  torch.fsum [seq torch.fmul e e
             | e <- flatten [seq torch.vsub p.1 p.2 | p <- zip y yhat]].

Definition evaluate_loss (self : t) (yhat0 yhat1 y : mat) : t * fl :=
  let l0 := mse_sum y yhat0 in
  let l1 := mse_sum y yhat1 in
  let: (lam0', lam1') :=
    if torch.flt l0 l1 then
      let lam0' := torch.clip (lam0 self - delta self) 0 1 in
      let lam1' := lam0' + lamdiff self in
      (lam0', lam1')
    else
      let lam1' := torch.clip (lam1 self + delta self) 0 1 in
      let lam0' := lam1' - lamdiff self in
      (lam0', lam1') in
  (Build (base self) (bias self) (polynomial_order self)
         (Sxx0 self) (Sxy0 self) (Sxx1 self) (Sxy1 self) lam0' lam1'
         (delta self) (lamdiff self),
   torch.fmul (torch.fadd l0 l1) (torch.Fin 2%:R^-1)).

(** A history of calls on one instance. *)
Variant call : Type :=
  | EvaluateLoss (yhat0 yhat1 y : mat)
  | Update (x y : mat).

Definition do_call (self : t) (c : call) : t :=
  match c with
  | EvaluateLoss yhat0 yhat1 y => (evaluate_loss self yhat0 yhat1 y).1
  | Update x y => update self x y
  end.

Definition run (self : t) (calls : seq call) : t := foldl do_call self calls.

End Defs.
End MovingAvgLeastSquares.

(** * Exceptions outside the estimators

    The exceptions the data pipeline and the adversarial networks can
    raise, with an error monad of their own. *)

Module python.

Variant exception : Type :=
  | IndexError     (* index out of range *)
  | KeyError       (* missing dictionary key *)
  | ValueError     (* zero slice step, window larger than the array,
                      operands that do not broadcast *)
  | AssertionError
  | TypeError      (* 'NoneType' object is not callable *)
  | RuntimeError.  (* torch.cat on an empty list *)

Variant outcome (A : Type) : Type :=
  | Return (a : A)
  | Raised (e : exception).
Arguments Return {A} a.
Arguments Raised {A} e.

Definition and_then {A B : Type} (c : outcome A) (k : A -> outcome B)
  : outcome B :=
  match c with
  | Return a => k a
  | Raised e => Raised e
  end.

End python.

Notation "x <~ c ;; k" := (python.and_then c (fun x => k))
  (at level 100, c at next level, right associativity).

(** * The data pipeline, embedded from [src/ssumo/data/dataset.py] *)

Module dataset.
Import python.

(** ** normalize_root and inv_normalize_root *)

Section Root.
Variable R : realFieldType.
Variables batch dims : nat.

(** [arena_size] holds two rows: the lower corner of the arena,
    [arena_size[0]], and the upper one, [arena_size[1]]; both broadcast
    over the batch. *)
Definition lower (arena_size : 'M[R]_(2, dims)) (j : 'I_dims) : R :=
  arena_size ord0 j.
Definition upper (arena_size : 'M[R]_(2, dims)) (j : 'I_dims) : R :=
  arena_size ord_max j.

Definition normalize_root (root : 'M[R]_(batch, dims))
    (arena_size : 'M[R]_(2, dims)) : 'M[R]_(batch, dims) :=
  let norm_root := \matrix_(i, j) (root i j - lower arena_size j) in
  \matrix_(i, j) (2 * norm_root i j / (upper arena_size j - lower arena_size j)
                  - 1).

Definition inv_normalize_root (norm_root : 'M[R]_(batch, dims))
    (arena_size : 'M[R]_(2, dims)) : 'M[R]_(batch, dims) :=
  let root := \matrix_(i, j) (2^-1 * (norm_root i j + 1)
                              * (upper arena_size j - lower arena_size j)) in
  \matrix_(i, j) (root i j + lower arena_size j).

End Root.

(** ** get_window_indices *)

Section Windows.

(** [stride] and [window] are non-negative integers, the identifiers
    integers, the frame indices natural numbers. *)

(** [s[lo:hi]] for non-negative bounds. *)
Definition slice (A : Type) (s : seq A) (lo hi : nat) : seq A :=
  drop lo (take hi s).

(** [s[::step]]: the entries at 0, step, 2 step, ...; a zero step raises. *)
Definition every (A : Type) (step : nat) (s : seq A) : outcome (seq A) :=
  if step == 0%N then Raised ValueError
  else Return (flatten [seq take 1 (drop (k * step) s)
                       | k <- iota 0 ((size s + step.-1) %/ step)]).

(** [np.arange(n)] *)
Definition arange (n : nat) : seq nat := iota 0 n.

(** [np.diff(a)]: the differences of neighbours. *)
Definition np_diff (a : seq int) : seq int :=
  [seq nth 0 a k.+1 - nth 0 a k | k <- iota 0 (size a).-1].

(** [np.where(d != 0)[0]] *)
Definition where_nonzero (d : seq int) : seq nat :=
  [seq k <- iota 0 (size d) | nth 0 d k != 0].

(** [sliding_window_view(arr, window_shape=w, axis=0)] of a 1-d array: all
    the [size arr - w + 1] runs of [w] neighbours. *)
Definition sliding_window_view (arr : seq nat) (w : nat)
  : outcome (seq (seq nat)) :=
  if (size arr < w)%N then Raised ValueError
  else Return [seq take w (drop j arr) | j <- iota 0 (size arr - w).+1].

(** [a - b] on 1-d integer arrays, with numpy's broadcasting. *)
Definition np_sub (a b : seq int) : outcome (seq int) :=
  if size a == size b then Return [seq x.1 - x.2 | x <- zip a b]
  else if size b == 1%N then Return [seq x - head 0 b | x <- a]
  else if size a == 1%N then Return [seq head 0 a - y | y <- b]
  else Raised ValueError.

Definition np_sum (a : seq int) : int := foldr +%R 0 a.

(** [torch.cat(tensors, dim=0)] of 2-d tensors of one width. *)
Definition torch_cat (tensors : seq (seq (seq nat)))
  : outcome (seq (seq nat)) :=
  if tensors is [::] then Raised RuntimeError else Return (flatten tensors).

(** [id_diff] and [id_change] of the source; [ids[0]] raises on no frames. *)
Definition id_diff (ids : seq int) : outcome (seq int) :=
  if ids is x0 :: _ then Return (np_diff (x0 :: ids)) else Raised IndexError.

Definition id_change (ids : seq int) : outcome (seq nat) :=
  d <~ id_diff ids ;;
  Return (0%N :: where_nonzero d ++ [:: size ids]).

(** The check made after a segment has given more than one window. *)
Definition second_window_check (frame_idx : seq nat)
    (strided_data : seq (seq nat)) (lo stride window : nat) : outcome unit :=
  if (1 < size strided_data)%N then
    d <~ np_sub [seq k%:Z | k <- nth [::] strided_data 1]
                [seq k%:Z | k <- slice frame_idx (lo + stride)
                                                 (lo + window + stride)] ;;
    if np_sum d == 0 then Return tt else Raised AssertionError
  else Return tt.

(** One turn of the loop over [range(0, len(id_change) - 1)]. *)
Definition segment (frame_idx ch : seq nat) (stride window : nat)
    (window_inds : seq (seq (seq nat))) (i : nat)
  : outcome (seq (seq (seq nat))) :=
  let lo := nth 0%N ch i in
  let hi := nth 0%N ch i.+1 in
  if (window%:Z <= hi%:Z - lo%:Z) then
    views <~ sliding_window_view (slice frame_idx lo hi) window ;;
    strided_data <~ every stride views ;;
    let window_inds := window_inds ++ [:: strided_data] in
    _ <~ second_window_check frame_idx strided_data lo stride window ;;
    Return window_inds
  else Return window_inds.

Fixpoint loop (A : Type) (body : A -> nat -> outcome A) (acc : A)
    (range : seq nat) : outcome A :=
  if range is i :: range' then
    acc' <~ body acc i ;; loop body acc' range'
  else Return acc.

Definition get_window_indices (ids : seq int) (stride window : nat)
  : outcome (seq (seq nat)) :=
  let frame_idx := arange (size ids) in
  ch <~ id_change ids ;;
  window_inds <~ loop (segment frame_idx ch stride window) [::]
                      (iota 0 (size ch).-1) ;;
  torch_cat window_inds.

End Windows.
End dataset.

(** ** MouseDataset *)

Module MouseDataset.
Import python.
Section Defs.
Variable key : eqType.   (* dictionary keys *)
Variable T : Type.       (* one frame of a data array *)

(** A dict in insertion order. *)
Definition dict (V : Type) : Type := seq (key * V).

Definition lookup (V : Type) (d : dict V) (k : key) : outcome V :=
  if [seq kv <- d | kv.1 == k] is kv :: _ then Return kv.2
  else Raised KeyError.

(** [d[k] = v] *)
Definition setitem (V : Type) (d : dict V) (k : key) (v : V) : dict V :=
  if k \in [seq kv.1 | kv <- d]
  then [seq if kv.1 == k then (k, v) else kv | kv <- d]
  else rcons d (k, v).

(** [d.update(d')] *)
Definition update (V : Type) (d d' : dict V) : dict V :=
  foldl (fun d kv => setitem d kv.1 kv.2) d d'.

(** [a[i]] for a Python integer: a negative [i] counts from the end. *)
Definition getitem (A : Type) (a : seq A) (i : int) : outcome A :=
  let at_ (k : nat) :=
    if drop k a is x :: _ then Return x else Raised IndexError in
  match i with
  | Posz k => at_ k
  | Negz k => if (k < size a)%N then at_ (size a - k.+1)%N
              else Raised IndexError
  end.

(** [a[inds]] for a tensor of non-negative indices. *)
Fixpoint take_frames (a : seq T) (inds : seq nat) : outcome (seq T) :=
  if inds is j :: inds' then
    x <~ getitem a (Posz j) ;;
    xs <~ take_frames a inds' ;;
    Return (x :: xs)
  else Return [::].

(** The attributes [__getitem__] and [__len__] read; the others
    ([arena_size], [kinematic_tree], [n_keypts], [discrete_classes],
    [norm_params], [label]) are stored as given. *)
Record t : Type := Build {
  data : dict (seq T);
  window_inds : seq (seq nat);
  ind_with_window_inds : seq key
}.

(** An entry of a query: the frames of one window, taken from an array
    that holds one entry per frame, or one entry of an array that holds one
    entry per window. *)
Variant item : Type :=
  | frames (rows : seq T)
  | entry (row : T).

Definition __init__ (data : dict (seq T)) (window_inds : seq (seq nat)) : t :=
  {| data := data;
     window_inds := window_inds;
     ind_with_window_inds :=
       [seq kv.1 | kv <- data & size kv.2 != size window_inds] |}.

Definition __len__ (self : t) : nat := size (window_inds self).

(** A dict comprehension: the entries are evaluated and stored in turn. *)
Fixpoint comprehension (A : Type) (f : A -> outcome (option (key * item)))
    (q : dict item) (s : seq A) : outcome (dict item) :=
  if s is x :: s' then
    e <~ f x ;;
    comprehension f (if e is Some kv then setitem q kv.1 kv.2 else q) s'
  else Return q.

Definition __getitem__ (self : t) (idx : int) : outcome (dict item) :=
  query <~ comprehension
             (fun k => a <~ lookup (data self) k ;;
                       inds <~ getitem (window_inds self) idx ;;
                       rows <~ take_frames a inds ;;
                       Return (Some (k, frames rows)))
             [::] (ind_with_window_inds self) ;;
  already <~ comprehension
               (fun kv : key * seq T =>
                  if kv.1 \notin ind_with_window_inds self then
                    row <~ getitem kv.2 idx ;;
                    Return (Some (kv.1, entry row))
                  else Return None)
               [::] (data self) ;;
  Return (update query already).

End Defs.
End MouseDataset.

(** ** Forward passes of the adversarial networks *)

Module adversary.
Import python.
Section Run.
Variable R : realFieldType.
Notation tensor := (GradientReversal.tensor R).

(** What the library modules compute: an [nn.Linear] by its place in the
    network (every instance draws its own parameters) and [tanh]; the
    gradient flag of the incoming tensor.  No network of this file nests
    an ensemble in a branch; what such a module would return is left
    open. *)
Variable linear : seq nat -> nat -> nat -> bool -> tensor -> tensor.
Variable tanh : R -> R.
Variable nested : seq nat -> seq (nn.Sequential R) -> tensor -> outcome tensor.
Variable requires_grad : bool.

(** [module(input)]; calling the [None] of an absent [Tanh] raises. *)
Definition module_call (place : seq nat) (m : nn.layer R) (input : tensor)
  : outcome tensor :=
  match m with
  | nn.GRL l =>
      Return (GradientReversalLayer.forward l requires_grad input).2
  | nn.LinearLayer i o b => Return (linear place i o b input)
  | nn.ReLU => Return [seq Num.max x 0 | x <- input]
  | nn.Tanh => Return [seq tanh x | x <- input]
  | nn.NoModule => Raised TypeError
  | nn.Ensemble branches => nested place branches input
  end.

(** [nn.Sequential.forward]: [for module in self: input = module(input)];
    module [k] of the network at [place] sits at [rcons place k]. *)
Fixpoint Sequential_forward (place : seq nat) (k : nat)
    (net : nn.Sequential R) (input : tensor) : outcome tensor :=
  if net is m :: net' then
    input' <~ module_call (rcons place k) m input ;;
    Sequential_forward place k.+1 net' input'
  else Return input.

(** [MLP.forward] *)
Definition MLP_forward (place : seq nat) (mlp : nn.Sequential R)
    (z : tensor) : outcome tensor :=
  Sequential_forward place 0 mlp z.

(** The sub-networks an ensemble holds. *)
Definition branches (m : nn.layer R) : seq (nn.Sequential R) :=
  if m is nn.Ensemble bs then bs else [::].

(** [[mlp(z) for mlp in ensemble]] *)
Fixpoint each (place : seq nat) (i : nat) (ensemble : seq (nn.Sequential R))
    (z : tensor) : outcome (seq tensor) :=
  if ensemble is mlp :: ensemble' then
    y <~ MLP_forward (rcons place i) mlp z ;;
    ys <~ each place i.+1 ensemble' z ;;
    Return (y :: ys)
  else Return [::].

(** [MLPEnsemble.forward] *)
Definition MLPEnsemble_forward (place : seq nat) (self : nn.layer R)
    (z : tensor) : outcome (seq tensor) :=
  each place 0 (branches self) z.

(** [ReversalEnsemble.forward]: [mlp1], [mlp2] and [mlp3] in turn; [lin]
    is not run. *)
Definition ReversalEnsemble_forward (place : seq nat) (self : nn.layer R)
    (z : tensor) : outcome (seq tensor) :=
  let mlp i := nth [::] (branches self) i in
  b <~ Sequential_forward (rcons place 1) 0 (mlp 1%N) z ;;
  c <~ Sequential_forward (rcons place 2) 0 (mlp 2%N) z ;;
  d <~ Sequential_forward (rcons place 3) 0 (mlp 3%N) z ;;
  Return [:: b; c; d].

End Run.
End adversary.

(** ** GRScrubber *)

Module GRScrubber.
Import python.
Section Defs.
Variable R : realFieldType.
Notation tensor := (GradientReversal.tensor R).

(** [reversal]: the two modules of its [nn.Sequential]. *)
Record t := Build {
  reversal : GradientReversalLayer.t R * nn.layer R
}.

Definition __init__ (in_dim out_dim : nat) (alpha : R) (bound : bool) : t :=
  Build (GradientReversalLayer.__init__ alpha,
         nn.ReversalEnsemble R in_dim out_dim bound).

Variable linear : seq nat -> nat -> nat -> bool -> tensor -> tensor.
Variable tanh : R -> R.
Variable nested : seq nat -> seq (nn.Sequential R) -> tensor -> outcome tensor.
Variable requires_grad : bool.

(** [forward]: the value stored under ["gr"]. *)
Definition forward (self : t) (z : tensor) : outcome (seq tensor) :=
  z' <~ adversary.module_call linear tanh nested requires_grad [:: 0%N]
          (nn.GRL (reversal self).1) z ;;
  adversary.ReversalEnsemble_forward linear tanh nested requires_grad
    [:: 1%N] (reversal self).2 z'.

End Defs.
End GRScrubber.

(** ** Predicates on a pair of forgetting factors *)

Module DualRate.
Section Defs.
Variable R : realFieldType.

(** The slow factor is the fast one plus the gap. *)
Definition gap_is (lamdiff l_fast l_slow : R) : Prop :=
  l_slow - l_fast = lamdiff.

(** Both factors lie in [0, 1] and are separated by the gap. *)
Definition in_unit (lamdiff l_fast l_slow : R) : Prop :=
  [/\ l_slow - l_fast = lamdiff, 0 <= l_fast <= 1 & 0 <= l_slow <= 1].

(** A property of the pair kept by both branches of the adaptation
    rule. *)
Definition adapt_closed (delta lamdiff : R) (P : R -> R -> Prop) : Prop :=
  forall l_fast l_slow, P l_fast l_slow ->
    P (torch.clip (l_fast - delta) 0 1)
      (torch.clip (l_fast - delta) 0 1 + lamdiff)
    /\ P (torch.clip (l_slow + delta) 0 1 - lamdiff)
         (torch.clip (l_slow + delta) 0 1).

End Defs.
End DualRate.

(** ** Invariants of the three trackers: a property of the pair of
    factors of every tracked class *)

Module Inv.
Section Defs.
Variable R : realFieldType.
Variable label : eqType.

Definition mean_filter (P : R -> R -> Prop)
    (self : MovingAverageFilter.t R label) : Prop :=
  forall i, (i < size (MovingAverageFilter.classes self))%N ->
    P (nth 0 (MovingAverageFilter.lam1 self) i)
      (nth 0 (MovingAverageFilter.lam2 self) i).

(** The configuration of an instance is the one of another. *)
Definition mean_filter_params (self self' : MovingAverageFilter.t R label)
  : Prop :=
  [/\ MovingAverageFilter.classes self' = MovingAverageFilter.classes self,
      MovingAverageFilter.delta self' = MovingAverageFilter.delta self
    & MovingAverageFilter.lamdiff self' = MovingAverageFilter.lamdiff self].

Definition discriminant (P : R -> R -> Prop)
    (self : QuadraticDiscriminantFilter.t R label) : Prop :=
  forall l, l \in QuadraticDiscriminantFilter.classes self ->
    exists2 p, QuadraticDiscriminantFilter.bufs self l = Some p
             & P (QuadraticDiscriminantFilter.lama p)
                 (QuadraticDiscriminantFilter.lamb p).

Definition discriminant_params
    (self self' : QuadraticDiscriminantFilter.t R label) : Prop :=
  [/\ QuadraticDiscriminantFilter.classes self'
        = QuadraticDiscriminantFilter.classes self,
      QuadraticDiscriminantFilter.delta self'
        = QuadraticDiscriminantFilter.delta self
    & QuadraticDiscriminantFilter.lamdiff self'
        = QuadraticDiscriminantFilter.lamdiff self].

Definition least_squares (P : R -> R -> Prop)
    (self : MovingAvgLeastSquares.t R) : Prop :=
  P (MovingAvgLeastSquares.lam0 self) (MovingAvgLeastSquares.lam1 self).

End Defs.
End Inv.

(** ** The mean tracker seen from one class *)

Module PerClass.
Section Defs.
Variable R : realFieldType.
Variable label : eqType.

(** The accumulator rows and the factors of class [i]. *)
Definition entries (self : MovingAverageFilter.t R label) (i : nat)
  : torch.vec R * torch.vec R * R * R :=
  (nth [::] (MovingAverageFilter.m1 self) i,
   nth [::] (MovingAverageFilter.m2 self) i,
   nth 0 (MovingAverageFilter.lam1 self) i,
   nth 0 (MovingAverageFilter.lam2 self) i).

(** The loop body of [evaluate_loss] on the entries of one class. *)
Definition step (delta lamdiff : R) (x : torch.mat R) (y : seq label)
    (lbl : label) (e : torch.vec R * torch.vec R * R * R)
  : torch.vec R * torch.vec R * R * R :=
  let: (m1i, m2i, l1, l2) := e in
  let xbar :=
    torch.mean0 (size m1i) (torch.rows_where [seq yk == lbl | yk <- y] x) in
  let d1 := torch.linalg_norm (torch.vsub xbar m1i) in
  let d2 := torch.linalg_norm (torch.vsub xbar m2i) in
  let: (l1', l2') :=
    if torch.norm_lt d1 d2
    then (torch.clip (l1 - delta) 0 1, torch.clip (l1 - delta) 0 1 + lamdiff)
    else (torch.clip (l2 + delta) 0 1 - lamdiff, torch.clip (l2 + delta) 0 1)
  in
  (torch.vadd (torch.vscale (torch.Fin (1 - l1')) xbar)
              (torch.vscale (torch.Fin l1') m1i),
   torch.vadd (torch.vscale (torch.Fin (1 - l2')) xbar)
              (torch.vscale (torch.Fin l2') m2i),
   l1', l2').

End Defs.
End PerClass.

(** ** Runs of one identifier and their windows *)

Module Windows.

(** All frames of [ids[s : s + len]] carry the identifier of frame [s]. *)
Definition constant_on (ids : seq int) (s len : nat) : bool :=
  all (fun j => nth 0 ids j == nth 0 ids s) (iota s len).

(** Frame [a] opens a run: it is the first frame, or its identifier differs
    from the one before. *)
Definition run_start (ids : seq int) (a : nat) : bool :=
  (a < size ids)%N && ((a == 0%N) || (nth 0 ids a != nth 0 ids a.-1)).

(** Some stretch of [window] frames with one identifier exists. *)
Definition fits (ids : seq int) (window : nat) : bool :=
  (window <= size ids)%N
  && has (fun s => constant_on ids s window) (iota 0 (size ids - window).+1).

(** The windows one run [lo, hi) of frames gives: they start every
    [stride] frames from [lo], as long as [window] frames are left. *)
Definition run_windows (lo hi stride window : nat) : seq (seq nat) :=
  [seq iota (lo + k * stride) window
  | k <- iota 0 (((hi - lo - window).+1 + stride.-1) %/ stride)].

(** The frames at which the identifier changes, between [0] and the number
    of frames: the [id_change] array of the source. *)
Definition boundaries (ids : seq int) : seq nat :=
  0%N :: dataset.where_nonzero (dataset.np_diff (head 0 ids :: ids))
      ++ [:: size ids].

Arguments boundaries ids : simpl never.

Definition change (ids : seq int) (j : nat) : bool :=
  nth 0 ids j != nth 0 ids j.-1.

(** Run [i] of the boundaries [ch] holds at least [window] frames. *)
Definition long_run (ch : seq nat) (window i : nat) : bool :=
  (nth 0%N ch i + window <= nth 0%N ch i.+1)%N.

(** The windows of all long runs, run after run. *)
Definition all_windows (ids : seq int) (stride window : nat)
  : seq (seq (seq nat)) :=
  let ch := boundaries ids in
  [seq run_windows (nth 0%N ch i) (nth 0%N ch i.+1) stride window
  | i <- iota 0 (size ch).-1 & long_run ch window i].

End Windows.

(** ** Indices and the two kinds of arrays of a data set *)

Module Items.
Section Defs.
Variable key : eqType.
Variable T : Type.

(** The position a Python index [i] stands for in a sequence of [n]
    entries, and whether it is in range. *)
Definition position (n : nat) (i : int) : nat :=
  match i with Posz k => k | Negz k => (n - k.+1)%N end.

Definition in_range (n : nat) (i : int) : bool :=
  match i with Posz k => (k < n)%N | Negz k => (k < n)%N end.

(** The arrays with one entry per frame, and those with one per window. *)
Definition per_frame (data : MouseDataset.dict key (seq T))
    (window_inds : seq (seq nat)) :=
  [seq kv <- data | size kv.2 != size window_inds].

Definition per_window (data : MouseDataset.dict key (seq T))
    (window_inds : seq (seq nat)) :=
  [seq kv <- data | size kv.2 == size window_inds].

End Defs.
End Items.

(** ** The statistics of the discriminant tracker *)

Module Stats.
Section Defs.
Variable R : realFieldType.
Variable label : eqType.

(** The eight accumulators of one label, without its two factors. *)
Definition of_params (p : QuadraticDiscriminantFilter.params R) :=
  (QuadraticDiscriminantFilter.m0a p, QuadraticDiscriminantFilter.m1a p,
   QuadraticDiscriminantFilter.m0b p, QuadraticDiscriminantFilter.m1b p,
   QuadraticDiscriminantFilter.S0a p, QuadraticDiscriminantFilter.S1a p,
   QuadraticDiscriminantFilter.S0b p, QuadraticDiscriminantFilter.S1b p).

(** Two instances hold the same accumulators for every label. *)
Definition same (self self' : QuadraticDiscriminantFilter.t R label) : Prop :=
  forall l, omap of_params (QuadraticDiscriminantFilter.bufs self l)
            = omap of_params (QuadraticDiscriminantFilter.bufs self' l).

End Defs.
End Stats.

(** ** Square symmetric tables *)

Module Gram.
Section Defs.
Variable R : realFieldType.




End Defs.
End Gram.

(** ** Concrete inputs over the rationals, with natural numbers as
    labels *)

Module Examples.

Definition q (n d : nat) : rat := n%:R / d%:R.
Definition f (n d : nat) : torch.fl rat := torch.Fin (q n d).

(** [str] of a label. *)
Definition str (n : nat) : string :=
  NilEmpty.string_of_uint (Nat.to_uint n).

(** Stand-ins for [torch.logdet] and [torch.linalg.solve] on the
    discriminant tracker: the undefined value and a refusal. *)
Definition logdet (S : torch.mat rat) : torch.fl rat := torch.NaN rat.
Definition linalg_solve (A B : torch.mat rat) : result (torch.mat rat) :=
  Raise LinAlgError.

(** A batch of two samples with two features, one sample per class. *)
Definition x2 : torch.mat rat := [:: [:: f 0 1; f 1 1]; [:: f 0 1; f 1 1]].
Definition y01 : seq nat := [:: 0; 1]%N.
(** The same batch with both samples in class 0. *)
Definition y00 : seq nat := [:: 0; 0]%N.

(** A mean tracker over the classes 0 and 1 whose accumulators all hold
    the mean (0, 1), and one whose classes hold (0, 0) and (1, 1). *)
Definition mf_shared : MovingAverageFilter.t rat nat :=
  MovingAverageFilter.Build (nn_Module.__init__ nn_Module.__new__) [:: 0; 1]%N
    x2 x2 [:: q 1 2; q 1 2] [:: q 3 4; q 3 4] (q 1 8) (q 1 4).
Definition x_apart : torch.mat rat :=
  [:: [:: f 0 1; f 0 1]; [:: f 1 1; f 1 1]].
Definition mf_apart : MovingAverageFilter.t rat nat :=
  MovingAverageFilter.Build (nn_Module.__init__ nn_Module.__new__) [:: 0; 1]%N
    x_apart x_apart [:: q 1 2; q 1 2] [:: q 3 4; q 3 4] (q 1 8) (q 1 4).

(** The mean tracker for the classes 0 and 1 with two features as its
    initializer leaves it, on an instance whose base class has been
    initialized, with [lamdiff = 1/4] and [delta = 1/8]. *)
Definition mf_fresh : result (MovingAverageFilter.t rat nat) :=
  MovingAverageFilter.__init__ (nn_Module.__init__ nn_Module.__new__)
    2 [:: 0; 1]%N (q 1 4) (q 1 8).

(** Histories of calls. *)
Definition mf_calls : seq (MovingAverageFilter.call rat nat) :=
  [:: MovingAverageFilter.EvaluateLoss x2 y01; MovingAverageFilter.Update _ _;
      MovingAverageFilter.EvaluateLoss x2 y00].
Definition qd_calls : seq (QuadraticDiscriminantFilter.call rat nat) :=
  [:: QuadraticDiscriminantFilter.Update x2 y01;
      QuadraticDiscriminantFilter.EvaluateLoss x2 y01 true].
Definition col (a : nat) : torch.mat rat := [:: [:: f a 1]; [:: f a 1]].
Definition ls_calls : seq (MovingAvgLeastSquares.call rat) :=
  [:: MovingAvgLeastSquares.EvaluateLoss (col 0) (col 1) (col 0);
      MovingAvgLeastSquares.Update x2 (col 1)].

End Examples.

(** ** Concrete inputs of the data pipeline *)

Module DataExamples.

(** Ten frames of the identifiers 1, 2, 3 and 1 again, and their windows
    of two frames, two frames apart. *)
Definition ids : seq int := [:: 1; 1; 1; 2; 2; 3; 1; 1; 1; 1].
Definition windows : seq (seq nat) :=
  [:: [:: 0; 1]; [:: 3; 4]; [:: 6; 7]; [:: 8; 9]]%N.

(** An array with one entry per frame under the key 0 and one with one
    entry per window under the key 1. *)
Definition data : MouseDataset.dict nat (seq nat) :=
  [:: (0, [:: 10; 11; 12; 13; 14; 15; 16; 17; 18; 19]);
      (1, [:: 100; 101; 102; 103])]%N.

(** Three frames and an array with one entry per frame. *)
Definition ids3 : seq int := [:: 1; 1; 2].
Definition data3 : MouseDataset.dict nat (seq nat) :=
  [:: (0, [:: 10; 11; 12])]%N.

(** An arena with the corners 0 and 1 in its one coordinate, and a root
    at 1. *)
Definition arena : 'M[rat]_(2, 1) := \matrix_(i, j) (i : nat)%:R.
Definition root : 'M[rat]_(1, 1) := 1%:M.

End DataExamples.

(** ** Short names for the three trackers *)

Module MAF := MovingAverageFilter.
Module QDF := QuadraticDiscriminantFilter.
Module MALS := MovingAvgLeastSquares.

(** * Properties *)

(** ** The gradient-reversal primitive *)

Section GradientReversalTheory.
Variable R : realFieldType.

(** C4. The forward pass of the gradient-reversal primitive returns its
    input unchanged whatever the gradient flags; the backward pass of the
    layer, reached when the input requires a gradient, turns an upstream
    gradient [g] into [-alpha * g] for the input and into no gradient for
    [alpha]; the second component is absent for every flag; and for
    [alpha = 2] the input gradient is [-2 g]. *)
Theorem gradient_reversal_contract (alpha : R) (x g : seq R) :
  let fwd a := GradientReversalLayer.forward
                 (GradientReversalLayer.__init__ a) true x in
  [/\ forall needs, (GradientReversal.forward needs x alpha).2 = x,
      GradientReversal.backward (fwd alpha).1 g
        = (Some [seq - alpha * gi | gi <- g], None),
      forall needs,
        (GradientReversal.backward
           (GradientReversal.forward needs x alpha).1 g).2 = None
    & GradientReversal.backward (fwd 2%:R).1 g
        = (Some [seq - 2%:R * gi | gi <- g], None)].
Proof. by split. Qed.

End GradientReversalTheory.

(** ** Construction of the mean tracker *)

Section MovingAverageFilterConstruction.
Variable R : realFieldType.
Variable label : eqType.

(** C10. [MovingAverageFilter(nx, classes, lamdiff, delta)] raises for
    every choice of arguments: its first [register_buffer] runs on an
    instance on which [nn.Module.__init__] has not run, so no instance is
    ever returned. *)
Theorem moving_average_filter_never_constructs
    (nx : nat) (classes : seq label) (lamdiff delta : R) :
  MovingAverageFilter.construct nx classes lamdiff delta
    = Raise AttributeError
  /\ forall self,
       MovingAverageFilter.construct nx classes lamdiff delta <> Ok self.
Proof. by split. Qed.

End MovingAverageFilterConstruction.

(** ** The linear decoupler *)

Section Decoupler.
Variable R : realFieldType.
Variables in_dim out_dim batch : nat.
Implicit Types (L : nn.Linear R in_dim out_dim) (z : 'M[R]_(batch, in_dim)).

(** The decoder's weight applied to the residual gives back minus the
    bias rows. *)
Lemma residual_weight L z :
  let w := nn.weight L in
  w *m w^T \in unitmx ->
  (z - (invmx (w *m w^T) *m (nn.Linear_forward L z)^T)^T *m w) *m w^T
    = - nn.bias_rows batch L.
Proof.
move=> w Hu; rewrite mulmxBl trmx_mul trmxK trmx_inv trmx_mul trmxK.
rewrite -!mulmxA [invmx _ *m _]mulVmx // mulmx1 /nn.Linear_forward -/w.
by rewrite opprD addrA subrr add0r.
Qed.


Lemma solve_unit (n p : nat) (A : 'M[R]_n) (B : 'M[R]_(n, p)) :
  A \in unitmx -> linalg.solve A B = Ok (invmx A *m B).
Proof. by rewrite /linalg.solve => ->. Qed.

End Decoupler.

Section DecouplerClaims.
Variable R : realFieldType.
Variables in_dim out_dim batch : nat.
Variable gr_out : Type.
Variable run :
  nn.Sequential R -> forall batch, 'M[R]_(batch, in_dim) -> gr_out.


End DecouplerClaims.



(** ** Construction with a misconfiguration *)

Section Misconfiguration.
Variable R : realFieldType.
Variables in_dim out_dim : nat.

Lemma range1_nonpos (p : int) :
  p <= 0 -> MovingAvgLeastSquares.range1 (p + 1) = [::].
Proof.
case: p => [[|n]|n] // _.
rewrite /MovingAvgLeastSquares.range1.
by case: n => [|n] //; rewrite NegzE.
Qed.

(** C6, amended. A reversal type other than "mlp", "linear" and
    "ensemble" makes [LinearDisentangle.__init__] return an instance
    without a reversal branch, whose [forward] emits no "gr" entry, and a
    polynomial order that is not positive makes [MovingAvgLeastSquares]
    return an instance whose accumulators have [0 + bias] rows: neither
    construction raises. *)
Theorem misconfigured_construction_returns
    (bias : bool) (reversal : string) (alpha : R) (do_detach : bool)
    (n_models : option nat)
    (w : 'M[R]_(out_dim, in_dim)) (b : 'rV[R]_out_dim)
    (nx ny : nat) (lamdiff delta : R) (ls_bias : bool) (p : int) :
  reversal <> "mlp"%string -> reversal <> "linear"%string ->
  reversal <> "ensemble"%string -> p <= 0 ->
  let self :=
    LinearDisentangle.Build do_detach
      (nn.BuildLinear w (if bias then Some b else None)) None in
  [/\ LinearDisentangle.__init__ bias reversal alpha do_detach n_models w b
        = Ok self,
      forall (gr_out : Type) run batch (z : 'M[R]_(batch, in_dim)) o,
        LinearDisentangle.forward (gr_out := gr_out) run self z = Ok o ->
        LinearDisentangle.gr o = None
    & exists2 ls,
        MovingAvgLeastSquares.construct nx ny lamdiff delta ls_bias p = Ok ls
      & [/\ MovingAvgLeastSquares.polynomial_order ls = p,
            MovingAvgLeastSquares.Sxx0 ls = torch.eye R ls_bias,
            MovingAvgLeastSquares.Sxy0 ls = torch.zeros R ls_bias ny,
            MovingAvgLeastSquares.Sxx1 ls = torch.eye R ls_bias
          & MovingAvgLeastSquares.Sxy1 ls = torch.zeros R ls_bias ny]].
Proof.
move=> /String.eqb_neq H1 /String.eqb_neq H2 /String.eqb_neq H3 Hp self.
split.
- by rewrite /LinearDisentangle.__init__ H1 H2 H3.
- move=> gr_out run batch z o; rewrite /LinearDisentangle.forward.
  by case: (linalg.solve _ _) => [s|e] //; rewrite /bind => -[<-].
rewrite /MovingAvgLeastSquares.construct /MovingAvgLeastSquares.__init__.
rewrite /MovingAvgLeastSquares.nx_poly range1_nonpos //=.
rewrite div0n muln0 add0n.
by eexists; first by reflexivity.
Qed.

End Misconfiguration.

(** The claim of C6 at a reversal type "conv" and at polynomial order 0:
    both constructions return. *)
Lemma misconfigured_construction_counterexample :
  raises (LinearDisentangle.__init__ false "conv" 1 true None
            (1%:M : 'M[rat]_1) 0) = false
  /\ raises (MovingAvgLeastSquares.construct 2 1 (1 / 10%:R : rat)
               (1 / 8%:R) false 0) = false.
Proof.
split; first by reflexivity.
by vm_compute.
Qed.

(** C6 as amended at the reversal type "conv" and the polynomial
    order 0. *)
Lemma misconfigured_construction_returns_witness :
  LinearDisentangle.__init__ false "conv" 1 true None (1%:M : 'M[rat]_1) 0
    = Ok (LinearDisentangle.Build true (nn.BuildLinear 1%:M None) None).
Proof.
have [] := @misconfigured_construction_returns rat 1 1 false "conv" 1 true
             None 1%:M 0 2 1 (1 / 10%:R) (1 / 8%:R) false 0.
- by [].
- by [].
- by [].
- by [].
by move=> ->.
Defined.

(** ** The adaptation rule on one pair of factors *)

Section DualRateTheory.
Variable R : realFieldType.
Implicit Types (delta lamdiff l : R).

Lemma gap_closed delta lamdiff :
  DualRate.adapt_closed delta lamdiff (DualRate.gap_is lamdiff).
Proof.
by move=> l1 l2 _; split; rewrite /DualRate.gap_is; lra.
Qed.

Lemma clip_unit l : 0 <= torch.clip l 0 1 <= 1.
Proof.
rewrite /torch.clip /Num.min /Num.max.
by case: ifP; case: ifP => *; lra.
Qed.

Lemma clip_decr delta l :
  0 <= delta -> 0 <= l -> torch.clip (l - delta) 0 1 <= l.
Proof.
rewrite /torch.clip /Num.min /Num.max => d0 l0.
by case: ifP; case: ifP => *; lra.
Qed.

Lemma clip_incr delta l :
  0 <= delta -> l <= 1 -> l <= torch.clip (l + delta) 0 1.
Proof.
rewrite /torch.clip /Num.min /Num.max => d0 l0.
by case: ifP; case: ifP => *; lra.
Qed.

Lemma unit_closed delta lamdiff :
  0 <= delta -> 0 <= lamdiff ->
  DualRate.adapt_closed delta lamdiff (DualRate.in_unit lamdiff).
Proof.
move=> d0 g0 l1 l2 [Hg /andP[l1a l1b] /andP[l2a l2b]].
have := clip_unit (l1 - delta); have := clip_decr d0 l1a.
have := clip_unit (l2 + delta); have := clip_incr d0 l2b.
move: (torch.clip _ _ _) (torch.clip _ _ _) => c2 c1 H1 /andP[H2 H3] H4.
move=> /andP[H5 H6].
by split; split; rewrite ?H5 ?H6 ?H2 ?H3 /=; lra.
Qed.

End DualRateTheory.

(** ** The factors of MovingAverageFilter along a history of calls *)

Section MovingAverageFilterFactors.
Variable R : realFieldType.
Variable label : eqType.
Implicit Types (self : MAF.t R label) (x : torch.mat R) (y : seq label).
Implicit Types (P : R -> R -> Prop).

Lemma class_step_params x y self il :
  Inv.mean_filter_params self (MAF.class_step x y self il).
Proof. by case: il => i lbl; rewrite /MAF.class_step; case: ifP. Qed.

Lemma class_step_lam_other x y self i lbl j :
  j != i ->
  nth 0 (MAF.lam1 (MAF.class_step x y self (i, lbl))) j
    = nth 0 (MAF.lam1 self) j
  /\ nth 0 (MAF.lam2 (MAF.class_step x y self (i, lbl))) j
    = nth 0 (MAF.lam2 self) j.
Proof.
move=> /negPf ji; rewrite /MAF.class_step.
by case: ifP => _ /=; rewrite !nth_set_nth /= ji.
Qed.

Lemma class_step_lam_at P x y self i lbl :
  DualRate.adapt_closed (MAF.delta self) (MAF.lamdiff self) P ->
  P (nth 0 (MAF.lam1 self) i) (nth 0 (MAF.lam2 self) i) ->
  P (nth 0 (MAF.lam1 (MAF.class_step x y self (i, lbl))) i)
    (nth 0 (MAF.lam2 (MAF.class_step x y self (i, lbl))) i).
Proof.
move=> HP /HP [Hf Hs]; rewrite /MAF.class_step.
by case: ifP => _ /=; rewrite !nth_set_nth /= eqxx.
Qed.

Lemma class_step_inv P x y self i lbl :
  DualRate.adapt_closed (MAF.delta self) (MAF.lamdiff self) P ->
  (i < size (MAF.classes self))%N ->
  Inv.mean_filter P self ->
  Inv.mean_filter P (MAF.class_step x y self (i, lbl)).
Proof.
move=> HP Hi Hinv j.
have [-> _ _] := class_step_params x y self (i, lbl) => Hj.
have [-> | ji] := eqVneq j i.
  by apply: class_step_lam_at => //; apply: Hinv.
by have [-> ->] := class_step_lam_other x y self lbl ji; apply: Hinv.
Qed.

Lemma class_loop_inv P x y (ils : seq (nat * label)) self :
  DualRate.adapt_closed (MAF.delta self) (MAF.lamdiff self) P ->
  all (fun il => il.1 < size (MAF.classes self))%N ils ->
  Inv.mean_filter P self ->
  Inv.mean_filter P (foldl (MAF.class_step x y) self ils)
  /\ Inv.mean_filter_params self (foldl (MAF.class_step x y) self ils).
Proof.
elim: ils self => [|[i lbl] ils IH] self HP //= /andP[Hi Hall] Hinv.
have [Hc Hd Hg] := class_step_params x y self (i, lbl).
have [] := IH (MAF.class_step x y self (i, lbl)).
- by rewrite Hd Hg.
- by rewrite Hc.
- exact: class_step_inv.
by move=> H1 [H2 H3 H4]; split=> //; split; rewrite ?H2 ?H3 ?H4.
Qed.

Lemma enumerate_bound (s : seq label) :
  all (fun il => il.1 < size s)%N (MAF.enumerate s).
Proof.
apply/allP => il Hil.
have : il.1 \in unzip1 (MAF.enumerate s) by apply: map_f.
by rewrite /MAF.enumerate unzip1_zip ?size_iota // mem_iota add0n => /andP[].
Qed.

Lemma maf_call_inv P self c :
  DualRate.adapt_closed (MAF.delta self) (MAF.lamdiff self) P ->
  Inv.mean_filter P self ->
  Inv.mean_filter P (MAF.do_call self c)
  /\ Inv.mean_filter_params self (MAF.do_call self c).
Proof.
move=> HP Hinv; case: c => [x y|]; last by [].
rewrite /MAF.do_call /MAF.evaluate_loss /=.
by apply: class_loop_inv => //; apply: enumerate_bound.
Qed.

Lemma maf_run_inv P self calls :
  DualRate.adapt_closed (MAF.delta self) (MAF.lamdiff self) P ->
  Inv.mean_filter P self ->
  Inv.mean_filter P (MAF.run self calls)
  /\ Inv.mean_filter_params self (MAF.run self calls).
Proof.
rewrite /MAF.run.
elim: calls self => [|c calls IH] self HP Hinv //=.
have [H1 [H2 H3 H4]] := maf_call_inv c HP Hinv.
have [] := IH (MAF.do_call self c); rewrite ?H3 ?H4 //.
by move=> H5 [H6 H7 H8]; split=> //; split; rewrite ?H6 ?H7 ?H8.
Qed.

(** The instance the initializer builds on an instance whose base class
    has been initialized. *)
Lemma maf_init_ok nx (classes : seq label) (lamdiff delta : R) self :
  MAF.__init__ (nn_Module.__init__ nn_Module.__new__) nx classes lamdiff delta
    = Ok self ->
  [/\ MAF.classes self = classes, MAF.delta self = delta,
      MAF.lamdiff self = lamdiff
    & forall i, (i < size classes)%N ->
        nth 0 (MAF.lam1 self) i = 2%:R^-1
        /\ nth 0 (MAF.lam2 self) i = 2%:R^-1 + lamdiff].
Proof.
rewrite /MAF.__init__ /= => -[<-] /=; split=> // i Hi.
have H1 : [seq one * 2%:R^-1 | one <- nseq (size classes) (1 : R)]`_i
            = 2%:R^-1.
  by rewrite (nth_map 0) ?size_nseq // nth_nseq Hi mul1r.
by split=> //; rewrite (nth_map 0) ?size_map ?size_nseq // H1.
Qed.

Lemma maf_init_total nx (classes : seq label) (lamdiff delta : R) :
  exists self,
    MAF.__init__ (nn_Module.__init__ nn_Module.__new__) nx classes lamdiff delta
      = Ok self.
Proof. by eexists; reflexivity. Qed.

End MovingAverageFilterFactors.

(** ** The factors of QuadraticDiscriminantFilter along a history of
    calls *)

Section DiscriminantFactors.
Variable R : realFieldType.
Variable label : eqType.
Variable logdet : torch.mat R -> torch.fl R.
Variable linalg_solve : torch.mat R -> torch.mat R -> result (torch.mat R).
Variable str : label -> string.
Implicit Types (self : QDF.t R label) (x : torch.mat R) (y : seq label).
Implicit Types (P : R -> R -> Prop) (p : QDF.params R).

Lemma foldM_raise (A B : Type) (f : A -> B -> result A) e (s : seq B) :
  foldl (fun acc b => a' <- acc ;; f a' b) (Raise e) s = Raise e.
Proof. by elim: s. Qed.

Lemma foldM_cons (A B : Type) (f : A -> B -> result A) a b (s : seq B) :
  QDF.foldM f a (b :: s)
    = (a' <- f a b ;; QDF.foldM f a' s).
Proof.
rewrite /QDF.foldM /=; case: (f a b) => [a'|e] //=.
exact: foldM_raise.
Qed.

(** The buffers a label receives at construction. *)
Lemma register_label_ok nx (lamdiff : R) names b (l : label) :
  exists names',
    QDF.register_label str nx lamdiff (nn_Module.Build (Some names), b) l
      = Ok (nn_Module.Build (Some names'),
            QDF.setattrs b l
              (QDF.initial_params nx (2%:R / 10%:R)
                 (2%:R / 10%:R + lamdiff))).
Proof. by rewrite /QDF.register_label /QDF.foldM /=; eexists. Qed.

Lemma register_all_ok P nx (lamdiff : R) (classes : seq label) names b :
  P (2%:R / 10%:R) (2%:R / 10%:R + lamdiff) ->
  (forall l p, b l = Some p -> P (QDF.lama p) (QDF.lamb p)) ->
  exists names' b',
    [/\ QDF.foldM (QDF.register_label str nx lamdiff)
          (nn_Module.Build (Some names), b) classes
          = Ok (nn_Module.Build (Some names'), b'),
        forall l p, b' l = Some p -> P (QDF.lama p) (QDF.lamb p)
      & forall l, l \in classes \/ b l -> b' l].
Proof.
move=> HP.
elim: classes names b => [|c cs IH] names b Hb.
  by exists names, b; split=> // l [].
rewrite foldM_cons.
have [names1 ->] /= := register_label_ok nx lamdiff names b c.
have [] := IH names1 (QDF.setattrs b c
  (QDF.initial_params nx (2%:R / 10%:R) (2%:R / 10%:R + lamdiff))).
  move=> l p; rewrite /QDF.setattrs; case: ifP => _; last exact: Hb.
  by case=> <-.
move=> names' [b' [-> Hb' Hreg]]; exists names', b'; split=> // l Hl.
apply: Hreg; rewrite /QDF.setattrs.
case: Hl => [|Hl]; last by right; case: ifP.
by rewrite inE => /orP[/eqP->|]; [right; rewrite eqxx | left].
Qed.

(** Construction returns, and every tracked class starts from the pair
    [(0.2, 0.2 + lamdiff)]. *)
Lemma qdf_construct_ok P nx (classes : seq label) (lamdiff delta : R) :
  P (2%:R / 10%:R) (2%:R / 10%:R + lamdiff) ->
  exists2 self,
    QDF.construct str nx classes lamdiff delta = Ok self
  & [/\ QDF.classes self = classes, QDF.delta self = delta,
        QDF.lamdiff self = lamdiff
      & Inv.discriminant P self].
Proof.
move=> HP; rewrite /QDF.construct /QDF.__init__ /nn_Module.__init__.
have [] := @register_all_ok P nx lamdiff classes [::] (fun _ => None) HP.
  by [].
move=> names' [b' [-> Hb' Hreg]] /=.
eexists; first by reflexivity.
split=> //= l Hl.
have := Hreg l (or_introl Hl).
by case E: (b' l) => [p|] // _; exists p => //; apply: Hb' E.
Qed.

Lemma update_label_inv P x y self lbl self' :
  Inv.discriminant P self ->
  QDF.update_label x y self lbl = Ok self' ->
  Inv.discriminant P self' /\ Inv.discriminant_params self self'.
Proof.
move=> Hinv; rewrite /QDF.update_label.
case E: (QDF.bufs self lbl) => [p|] // [<-]; split=> // l /= Hl.
rewrite /QDF.setattrs; case: (eqVneq l lbl) => [El|_]; last exact: Hinv.
have [p'] := Hinv l Hl; rewrite El E => -[<-] HP.
by exists (QDF.update_params x y lbl p).
Qed.

Lemma update_loop_inv P x y ls self :
  Inv.discriminant P self ->
  Inv.discriminant P (QDF.update_loop x y self ls).1
  /\ Inv.discriminant_params self (QDF.update_loop x y self ls).1.
Proof.
elim: ls self => [|l ls IH] self Hinv //=.
case E: (QDF.update_label x y self l) => [self'|e] //=.
have [H1 [H2 H3 H4]] := update_label_inv Hinv E.
have [H5 [H6 H7 H8]] := IH self' H1.
by split=> //; split; rewrite ?H6 ?H7 ?H8.
Qed.

Lemma adapt_inv P upd (delta lamdiff : R) lla llb p :
  DualRate.adapt_closed delta lamdiff P ->
  P (QDF.lama p) (QDF.lamb p) ->
  P (QDF.lama (QDF.adapt upd delta lamdiff lla llb p))
    (QDF.lamb (QDF.adapt upd delta lamdiff lla llb p)).
Proof.
move=> HP Hp; have [Hf Hs] := HP _ _ Hp.
by rewrite /QDF.adapt; case: ifP => _ //; case: ifP.
Qed.

Lemma loss_label_inv P x y upd self ll lbl :
  DualRate.adapt_closed (QDF.delta self) (QDF.lamdiff self) P ->
  Inv.discriminant P self ->
  let self' := (QDF.loss_label logdet linalg_solve x y upd self ll lbl).1 in
  Inv.discriminant P self' /\ Inv.discriminant_params self self'.
Proof.
move=> HP Hinv; rewrite /QDF.loss_label.
case E: (QDF.bufs self lbl) => [p|] //=.
case: (QDF.scores _ _ _ _) => [[[[lla0 lla1] llb0] llb1]|e] //=.
split=> // l /= Hl.
rewrite /QDF.setattrs; case: (eqVneq l lbl) => [El|_]; last exact: Hinv.
have [p'] := Hinv l Hl; rewrite El E => -[<-] Hp.
by eexists; [reflexivity | apply: adapt_inv].
Qed.

Lemma loss_loop_inv P x y upd ls self ll :
  DualRate.adapt_closed (QDF.delta self) (QDF.lamdiff self) P ->
  Inv.discriminant P self ->
  let self' := (QDF.loss_loop logdet linalg_solve x y upd self ll ls).1 in
  Inv.discriminant P self' /\ Inv.discriminant_params self self'.
Proof.
elim: ls self ll => [|l ls IH] self ll HP Hinv //=.
have [] := loss_label_inv x y upd ll l HP Hinv.
case: (QDF.loss_label _ _ _ _ _ _ _ _) => self1 [ll1|e] //= H1 [H2 H3 H4].
have [] := IH self1 ll1; rewrite ?H3 ?H4 //.
by move=> H5 [H6 H7 H8]; split=> //; split; rewrite ?H6 ?H7 ?H8.
Qed.

Lemma qdf_call_inv P self c :
  DualRate.adapt_closed (QDF.delta self) (QDF.lamdiff self) P ->
  Inv.discriminant P self ->
  Inv.discriminant P (QDF.do_call logdet linalg_solve self c)
  /\ Inv.discriminant_params self (QDF.do_call logdet linalg_solve self c).
Proof.
move=> HP Hinv; case: c => [x y upd|x y]; last exact: update_loop_inv.
rewrite /QDF.do_call /QDF.evaluate_loss.
have := loss_loop_inv x y upd (QDF.classes self) (torch.Fin 0) HP Hinv.
by case: (QDF.loss_loop _ _ _ _ _ _ _ _).
Qed.

Lemma qdf_run_inv P self calls :
  DualRate.adapt_closed (QDF.delta self) (QDF.lamdiff self) P ->
  Inv.discriminant P self ->
  Inv.discriminant P (QDF.run logdet linalg_solve self calls)
  /\ Inv.discriminant_params self (QDF.run logdet linalg_solve self calls).
Proof.
rewrite /QDF.run.
elim: calls self => [|c calls IH] self HP Hinv //=.
have [H1 [H2 H3 H4]] := qdf_call_inv c HP Hinv.
have [] := IH (QDF.do_call logdet linalg_solve self c); rewrite ?H3 ?H4 //.
by move=> H5 [H6 H7 H8]; split=> //; split; rewrite ?H6 ?H7 ?H8.
Qed.

End DiscriminantFactors.

(** ** MovingAvgLeastSquares: the size of the feature basis *)

Section FeatureBasis.

Lemma prod_iota (n i : nat) : MALS.prod (iota n i) = ((n + i).-1 ^_ i)%N.
Proof.
elim: i n => [|i IH] n; first by rewrite ffactn0.
rewrite /= -/(MALS.prod _) IH addSn addnS /= ffactnSr addnK.
by rewrite mulnC.
Qed.

Lemma prod_succ_iota (i : nat) :
  MALS.prod [seq j + 1 | j <- iota 0 i]%N = (i`!)%N.
Proof.
have -> : [seq j + 1 | j <- iota 0 i]%N = iota 1 i.
  by rewrite -[1%N]addn0 iotaDl; apply: eq_map => j; rewrite addnC.
by rewrite prod_iota add1n /= ffactnn.
Qed.

(** Each quotient accumulated by the initializer is a binomial
    coefficient: true division is exact there. *)
Lemma basis_term (nx i : nat) :
  (MALS.prod (iota nx i))%:R / (MALS.prod [seq j + 1 | j <- iota 0 i]%N)%:R
    = ('C((nx + i).-1, i))%:R :> rat.
Proof.
rewrite prod_iota prod_succ_iota -bin_ffact natrM mulfK //.
by rewrite pnatr_eq0 -lt0n fact_gt0.
Qed.

Lemma foldl_sum (f : nat -> rat) (s : seq nat) (a : rat) :
  foldl (fun acc i => acc + f i) a s = a + \sum_(i <- s) f i.
Proof.
elim: s a => [|i s IH] a /=; first by rewrite big_nil addr0.
by rewrite IH big_cons addrA.
Qed.

Lemma nx_polyE (nx : nat) (p : int) :
  MALS.nx_poly nx p
    = (\sum_(i <- MALS.range1 (p + 1)) 'C((nx + i).-1, i))%N%:R.
Proof.
rewrite /MALS.nx_poly foldl_sum add0r natr_sum.
by apply: eq_bigr => i _; rewrite basis_term.
Qed.

Lemma py_int_nat (n : nat) : MALS.py_int n%:R = Posz n.
Proof.
rewrite /MALS.py_int ler0n.
by rewrite -[n%:R]/(n%:Z%:~R) intrKfloor.
Qed.

End FeatureBasis.

(** ** The factors of MovingAvgLeastSquares along a history of calls *)

Section LeastSquaresFactors.
Variable R : realFieldType.
Implicit Types (self : MALS.t R) (P : R -> R -> Prop).

(** Construction returns for every configuration. *)
Lemma mals_construct_ok (nx ny : nat) (lamdiff delta : R) (bias : bool)
    (p : int) :
  let n := (\sum_(i <- MALS.range1 (p + 1)) 'C((nx + i).-1, i) + bias)%N in
  exists2 self, MALS.construct nx ny lamdiff delta bias p = Ok self
  & [/\ [/\ MALS.lam0 self = 9%:R / 10%:R,
            MALS.lam1 self = 9%:R / 10%:R + lamdiff,
            MALS.delta self = delta & MALS.lamdiff self = lamdiff],
        MALS.bias self = bias /\ MALS.polynomial_order self = p
      & [/\ MALS.Sxx0 self = torch.eye R n,
            MALS.Sxy0 self = torch.zeros R n ny,
            MALS.Sxx1 self = torch.eye R n
          & MALS.Sxy1 self = torch.zeros R n ny]].
Proof.
rewrite /MALS.construct /MALS.__init__ nx_polyE py_int_nat.
by eexists; [reflexivity | split].
Qed.

Lemma mals_call_inv P self c :
  DualRate.adapt_closed (MALS.delta self) (MALS.lamdiff self) P ->
  Inv.least_squares P self ->
  [/\ Inv.least_squares P (MALS.do_call self c),
      MALS.delta (MALS.do_call self c) = MALS.delta self
    & MALS.lamdiff (MALS.do_call self c) = MALS.lamdiff self].
Proof.
move=> HP Hinv; have [Hf Hs] := HP _ _ Hinv.
case: c => [yhat0 yhat1 y|x y]; last by [].
rewrite /MALS.do_call /MALS.evaluate_loss /Inv.least_squares.
by case: ifP.
Qed.

Lemma mals_run_inv P self calls :
  DualRate.adapt_closed (MALS.delta self) (MALS.lamdiff self) P ->
  Inv.least_squares P self ->
  Inv.least_squares P (MALS.run self calls).
Proof.
rewrite /MALS.run.
elim: calls self => [|c calls IH] self HP Hinv //=.
have [H1 H2 H3] := mals_call_inv c HP Hinv.
by apply: IH => //; rewrite H2 H3.
Qed.

End LeastSquaresFactors.

(** ** One class of the mean tracker through [evaluate_loss] *)

Section MeanFilterPerClass.
Variable R : realFieldType.
Variable label : eqType.
Implicit Types (self : MAF.t R label) (x : torch.mat R) (y : seq label).

Lemma class_step_at x y self i lbl :
  PerClass.entries (MAF.class_step x y self (i, lbl)) i
    = PerClass.step (MAF.delta self) (MAF.lamdiff self) x y lbl
        (PerClass.entries self i).
Proof.
rewrite /PerClass.entries /PerClass.step /MAF.class_step /MAF.xbar_of.
by case: ifP => _ /=; rewrite !nth_set_nth /= eqxx.
Qed.

Lemma class_step_other x y self i lbl j :
  j != i ->
  PerClass.entries (MAF.class_step x y self (i, lbl)) j
    = PerClass.entries self j.
Proof.
move=> /negPf ji; rewrite /PerClass.entries /MAF.class_step.
by case: ifP => _ /=; rewrite !nth_set_nth /= ji.
Qed.

Lemma class_loop_other x y (ils : seq (nat * label)) self j :
  all (fun il => il.1 != j) ils ->
  PerClass.entries (foldl (MAF.class_step x y) self ils) j
    = PerClass.entries self j.
Proof.
elim: ils self => [|[i lbl] ils IH] self //= /andP[ij Hall].
by rewrite IH // class_step_other // eq_sym.
Qed.

Lemma enumerate_split (lbl0 : label) (s : seq label) i :
  (i < size s)%N ->
  exists pre post,
    [/\ MAF.enumerate s = pre ++ (i, nth lbl0 s i) :: post,
        all (fun il => il.1 != i) pre
      & all (fun il => il.1 != i) post].
Proof.
move=> Hi; have Hle := ltnW Hi.
exists (zip (iota 0 i) (take i s)).
exists (zip (iota i.+1 (size s - i.+1)) (drop i.+1 s)).
split.
- rewrite /MAF.enumerate.
  have -> : iota 0 (size s) = iota 0 i ++ i :: iota i.+1 (size s - i.+1).
    by rewrite -{1}(subnKC Hle) iotaD add0n -(subnSK Hi).
  rewrite -[(i, _) :: zip _ _]/(zip (i :: _) (_ :: _)).
  rewrite -zip_cat ?size_iota ?size_takel //.
  by rewrite -drop_nth // cat_take_drop.
- apply/allP => il Hil.
  have : il.1 \in unzip1 (zip (iota 0 i) (take i s)) by apply: map_f.
  rewrite unzip1_zip ?size_iota ?size_takel // mem_iota add0n.
  by rewrite ltn_neqAle => /andP[_ /andP[]].
- apply/allP => il Hil.
  have : il.1 \in unzip1 (zip (iota i.+1 (size s - i.+1)) (drop i.+1 s)).
    exact: map_f.
  rewrite unzip1_zip ?size_iota ?size_drop // mem_iota => /andP[Hlt _].
  by rewrite neq_ltn Hlt orbT.
Qed.

Lemma class_loop_params x y (ils : seq (nat * label)) self :
  Inv.mean_filter_params self (foldl (MAF.class_step x y) self ils).
Proof.
elim: ils self => [|il ils IH] self //=.
have [H1 H2 H3] := class_step_params x y self il.
have [H4 H5 H6] := IH (MAF.class_step x y self il).
by split; rewrite ?H4 ?H5 ?H6.
Qed.

(** [evaluate_loss] runs the loop body once on the entries of every
    tracked class. *)
Lemma evaluate_loss_entries (lbl0 : label) x y self i :
  (i < size (MAF.classes self))%N ->
  PerClass.entries (MAF.evaluate_loss self x y).1 i
    = PerClass.step (MAF.delta self) (MAF.lamdiff self) x y
        (nth lbl0 (MAF.classes self) i) (PerClass.entries self i).
Proof.
move=> Hi; rewrite /MAF.evaluate_loss /=.
have [pre [post [-> Hpre Hpost]]] := enumerate_split lbl0 Hi.
rewrite foldl_cat /= class_loop_other // class_step_at.
have [_ -> ->] := class_loop_params x y pre self.
by rewrite class_loop_other.
Qed.

End MeanFilterPerClass.

(** ** Statistics over zero rows *)

Section ZeroRows.
Variable R : realFieldType.
Variable label : eqType.
Notation NaN := (torch.NaN R).
Implicit Types (u v : torch.vec R) (x : torch.mat R) (y : seq label).

Lemma rows_where_absent x y (lbl : label) :
  lbl \notin y -> torch.rows_where [seq yk == lbl | yk <- y] x = [::].
Proof.
rewrite /torch.rows_where.
elim: y x => [|yk y IH] [|r x] //=.
by rewrite inE negb_or eq_sym => /andP[/negPf-> /IH->].
Qed.

Lemma vsub_nan n v : torch.vsub (nseq n NaN) v = nseq (minn n (size v)) NaN.
Proof.
rewrite /torch.vsub.
by elim: n v => [|n IH] [|a v] //=; rewrite ?min0n ?minn0 ?minnSS ?IH.
Qed.

Lemma vadd_nan n v : torch.vadd (nseq n NaN) v = nseq (minn n (size v)) NaN.
Proof.
rewrite /torch.vadd.
by elim: n v => [|n IH] [|a v] //=; rewrite ?min0n ?minn0 ?minnSS ?IH.
Qed.

Lemma vscale_nan (a : torch.fl R) n :
  torch.vscale a (nseq n NaN) = nseq n NaN.
Proof. by rewrite /torch.vscale map_nseq; case: a. Qed.

Lemma vadd_vscale_nan (a : torch.fl R) n v :
  torch.vadd (torch.vscale a (nseq n NaN)) v = nseq (minn n (size v)) NaN.
Proof. by rewrite vscale_nan vadd_nan. Qed.

Lemma fsum_nan v : NaN \in v -> torch.fsum v = NaN.
Proof.
elim: v => [|a v IH] //=; rewrite inE => /orP[/eqP<-|/IH->] //.
by case: a.
Qed.

Lemma norm_nan n : (0 < n)%N ->
  torch.linalg_norm (nseq n NaN) = torch.Sqrt NaN.
Proof. by case: n. Qed.

(** The loop body of [evaluate_loss] on a class without a sample: the
    empirical mean is NaN, the slow branch is taken and both accumulator
    rows become NaN. *)
Lemma step_absent (delta lamdiff : R) x y (lbl : label) m1i m2i l1 l2 :
  lbl \notin y ->
  PerClass.step delta lamdiff x y lbl (m1i, m2i, l1, l2)
    = (nseq (size m1i) NaN, nseq (minn (size m1i) (size m2i)) NaN,
       torch.clip (l2 + delta) 0 1 - lamdiff, torch.clip (l2 + delta) 0 1).
Proof.
move=> Hy; rewrite /PerClass.step rows_where_absent //=.
rewrite !vsub_nan minnn.
have -> : torch.norm_lt (torch.linalg_norm (nseq (size m1i) NaN))
            (torch.linalg_norm (nseq (minn (size m1i) (size m2i)) NaN))
          = false.
  case: (size m1i) => [|n]; first by rewrite min0n /torch.norm_lt /= ltxx.
  by rewrite norm_nan.
by rewrite !vadd_vscale_nan /torch.vscale !size_map minnn.
Qed.

Lemma mean0_zero_rows n : torch.mean0 n [::] = nseq n NaN.
Proof. by []. Qed.

Lemma cov0_zero_rows n : torch.cov0 n [::] = nseq n (nseq n NaN).
Proof. by []. Qed.

(** Pairwise differences and their first off-diagonal on a row of NaN. *)
Lemma diagonal_nan n :
  (1 < n)%N -> NaN \in torch.diagonal 1 (torch.outer_sub (nseq n NaN)).
Proof.
move=> Hn.
have -> : torch.outer_sub (nseq n NaN) = nseq n (nseq n NaN).
  by rewrite /torch.outer_sub map_nseq map_nseq.
rewrite /torch.diagonal; apply/mapP; exists 0%N.
  rewrite mem_iota add0n /= size_nseq leq_min subn_gt0 Hn andbT.
  by case: n Hn => [|n] //= _; rewrite size_nseq.
by rewrite nth_nseq; case: ifP => _; rewrite ?nth_nseq ?nth_nil ?if_same.
Qed.

End ZeroRows.

(** ** [QuadraticDiscriminantFilter.update] on one tracked class *)

Section DiscriminantUpdate.
Variable R : realFieldType.
Variable label : eqType.
Implicit Types (self : QDF.t R label) (x : torch.mat R) (y : seq label).

Lemma update_loop_bufs x y (ls : seq label) self :
  uniq ls -> (forall l, l \in ls -> QDF.bufs self l) ->
  (QDF.update_loop x y self ls).2 = Ok tt
  /\ forall l,
       QDF.bufs (QDF.update_loop x y self ls).1 l
         = if l \in ls then omap (QDF.update_params x y l) (QDF.bufs self l)
           else QDF.bufs self l.
Proof.
elim: ls self => [|c cs IH] self //= /andP[Hc Hu] Hreg.
rewrite /QDF.update_label.
have := Hreg c (mem_head _ _); case E: (QDF.bufs self c) => [p|] // _.
set self1 := QDF.Build _ _ _ _ _.
have [|H1 H2] := IH self1 Hu.
  move=> l Hl; rewrite /self1 /= /QDF.setattrs; case: ifP => // _.
  by apply: Hreg; rewrite inE Hl orbT.
split=> // l; rewrite H2 /self1 /= /QDF.setattrs inE.
case: (eqVneq l c) => [->|lc] //=.
by rewrite (negPf Hc) E.
Qed.

(** With distinct registered classes, [update] returns and runs the
    loop body once on the buffers of every tracked class. *)
Lemma update_tracked x y self (l : label) p :
  uniq (QDF.classes self) ->
  (forall c, c \in QDF.classes self -> QDF.bufs self c) ->
  l \in QDF.classes self -> QDF.bufs self l = Some p ->
  (QDF.update self x y).2 = Ok tt
  /\ QDF.bufs (QDF.update self x y).1 l = Some (QDF.update_params x y l p).
Proof.
move=> Hu Hreg Hl Hp; have [H1 H2] := update_loop_bufs x y Hu Hreg.
by split; rewrite /QDF.update // H2 Hl Hp.
Qed.

(** Blending with an empirical statistic made of NaN leaves only NaN. *)
Lemma blend_nan (lam : R) (current empirical : torch.mat R) :
  all (all (pred1 (torch.NaN R))) empirical ->
  all (all (pred1 (torch.NaN R))) (QDF.blend lam current empirical).
Proof.
rewrite /QDF.blend /torch.madd /torch.mscale.
elim: current empirical => [|c cs IH] [|e es] //= /andP[He Hes].
rewrite IH // andbT {IH Hes}.
rewrite /torch.vadd /torch.vscale.
elim: c e He => [|a c IH] [|b e] //= /andP[/eqP-> He].
by apply/andP; split; [case: a | apply: IH].
Qed.

End DiscriminantUpdate.

(** ** The polynomial feature basis *)

Section PolynomialBasis.
Variable R : realFieldType.
Notation NaN := (torch.NaN R).
Implicit Types (self : MALS.t R) (x : torch.mat R) (r : torch.vec R).








End PolynomialBasis.

(** ** The index tuples of [torch.combinations] *)

Section CombinationsMembership.





End CombinationsMembership.

(** ** The two claims on the forgetting factors *)

Section FactorClaims.
Variable R : realFieldType.
Variable label : eqType.
Variable logdet : torch.mat R -> torch.fl R.
Variable linalg_solve : torch.mat R -> torch.mat R -> result (torch.mat R).
Variable str : label -> string.
Implicit Types (P : R -> R -> Prop) (classes : seq label).

(** Every tracked class keeps, along every history of calls, a property
    of its pair of factors that construction establishes and the
    adaptation rule preserves. The mean tracker is taken from its
    initializer run on an instance whose base class has been initialized,
    [MovingAverageFilter(...)] itself never returning. *)
Lemma maf_factors P nx classes (lamdiff delta : R) mf calls i :
  DualRate.adapt_closed delta lamdiff P -> P 2%:R^-1 (2%:R^-1 + lamdiff) ->
  MAF.__init__ (nn_Module.__init__ nn_Module.__new__) nx classes lamdiff delta
    = Ok mf ->
  (i < size classes)%N ->
  P (nth 0 (MAF.lam1 (MAF.run mf calls)) i)
    (nth 0 (MAF.lam2 (MAF.run mf calls)) i).
Proof.
move=> HP H0 Hmf Hi; have [Hc Hd Hg Hm] := maf_init_ok Hmf.
have HP' : DualRate.adapt_closed (MAF.delta mf) (MAF.lamdiff mf) P.
  by rewrite Hd Hg.
have Hinv : Inv.mean_filter P mf by move=> j; rewrite Hc => /Hm[-> ->].
have [H1 [H2 _ _]] := maf_run_inv calls HP' Hinv.
by apply: H1; rewrite H2 Hc.
Qed.

Lemma qdf_factors P nx classes (lamdiff delta : R) qd calls l :
  DualRate.adapt_closed delta lamdiff P ->
  P (2%:R / 10%:R) (2%:R / 10%:R + lamdiff) ->
  QDF.construct str nx classes lamdiff delta = Ok qd ->
  l \in classes ->
  exists2 p,
    QDF.bufs (QDF.run logdet linalg_solve qd calls) l = Some p
  & P (QDF.lama p) (QDF.lamb p).
Proof.
move=> HP H0 Hqd Hl.
have [qd'] := qdf_construct_ok str nx classes delta H0.
rewrite Hqd => -[<-] [Hc Hd Hg Hq].
have HP' : DualRate.adapt_closed (QDF.delta qd) (QDF.lamdiff qd) P.
  by rewrite Hd Hg.
have [H1 [H2 _ _]] := qdf_run_inv logdet linalg_solve calls HP' Hq.
by apply: H1; rewrite H2 Hc.
Qed.

Lemma mals_factors P nx ny (lamdiff delta : R) bias order ls calls :
  DualRate.adapt_closed delta lamdiff P ->
  P (9%:R / 10%:R) (9%:R / 10%:R + lamdiff) ->
  MALS.construct nx ny lamdiff delta bias order = Ok ls ->
  P (MALS.lam0 (MALS.run ls calls)) (MALS.lam1 (MALS.run ls calls)).
Proof.
move=> HP H0 Hls.
have [ls'] := mals_construct_ok nx ny lamdiff delta bias order.
rewrite Hls => -[<-] [[Hl1 Hl2 Hd Hg] _ _].
apply: mals_run_inv; first by rewrite Hd Hg.
by rewrite /Inv.least_squares Hl1 Hl2.
Qed.

Lemma gap_init (lamdiff a : R) : DualRate.gap_is lamdiff a (a + lamdiff).
Proof. by rewrite /DualRate.gap_is addrC addKr. Qed.

Lemma unit_init (lamdiff a : R) :
  0 <= lamdiff -> 0 <= a -> a + lamdiff <= 1 ->
  DualRate.in_unit lamdiff a (a + lamdiff).
Proof.
move=> g0 a0 a1; split; first exact: gap_init.
  by apply/andP; split; lra.
by apply/andP; split; lra.
Qed.

(** C2. For each of the three trackers, every tracked class and every
    finite history of [update] and [evaluate_loss] calls after
    construction, the slow factor minus the fast factor is the [lamdiff]
    given to the constructor (in exact arithmetic). *)
Theorem forgetting_gap_invariant
    (nx ny : nat) (classes : seq label) (lamdiff delta : R)
    (bias : bool) (order : int)
    (mf : MAF.t R label) (mf_calls : seq (MAF.call R label)) (i : nat)
    (qd : QDF.t R label) (qd_calls : seq (QDF.call R label)) (l : label)
    (ls : MALS.t R) (ls_calls : seq (MALS.call R)) :
  MAF.__init__ (nn_Module.__init__ nn_Module.__new__) nx classes lamdiff delta
    = Ok mf ->
  QDF.construct str nx classes lamdiff delta = Ok qd ->
  MALS.construct nx ny lamdiff delta bias order = Ok ls ->
  (i < size classes)%N -> l \in classes ->
  [/\ nth 0 (MAF.lam2 (MAF.run mf mf_calls)) i
        - nth 0 (MAF.lam1 (MAF.run mf mf_calls)) i = lamdiff,
      exists2 p,
        QDF.bufs (QDF.run logdet linalg_solve qd qd_calls) l = Some p
      & QDF.lamb p - QDF.lama p = lamdiff
    & MALS.lam1 (MALS.run ls ls_calls) - MALS.lam0 (MALS.run ls ls_calls)
        = lamdiff].
Proof.
have Hc := @gap_closed R delta lamdiff.
move=> Hmf Hqd Hls Hi Hl; split.
- exact: (maf_factors mf_calls Hc (gap_init _ _) Hmf Hi).
- exact: (qdf_factors qd_calls Hc (gap_init _ _) Hqd Hl).
- exact: (mals_factors ls_calls Hc (gap_init _ _) Hls).
Qed.

(** C3, amended. For each of the three trackers, every tracked class and
    every history of calls after construction, both factors of the pair
    stay in [0, 1] provided the step [delta] and the gap [lamdiff] given
    to the constructor are not negative and the initial fast factor plus
    the gap does not exceed 1: [lamdiff <= 1/2] for the mean tracker,
    [lamdiff <= 8/10] for the discriminant tracker and [lamdiff <= 1/10]
    for the least-squares tracker, which the defaults satisfy. *)
Theorem forgetting_factors_in_unit
    (nx ny : nat) (classes : seq label)
    (lamdiff_m delta_m lamdiff_q delta_q lamdiff_l delta_l : R)
    (bias : bool) (order : int)
    (mf : MAF.t R label) (mf_calls : seq (MAF.call R label)) (i : nat)
    (qd : QDF.t R label) (qd_calls : seq (QDF.call R label)) (l : label)
    (ls : MALS.t R) (ls_calls : seq (MALS.call R)) :
  0 <= delta_m -> 0 <= lamdiff_m <= 1 / 2%:R ->
  0 <= delta_q -> 0 <= lamdiff_q <= 8%:R / 10%:R ->
  0 <= delta_l -> 0 <= lamdiff_l <= 1 / 10%:R ->
  MAF.__init__ (nn_Module.__init__ nn_Module.__new__) nx classes
    lamdiff_m delta_m = Ok mf ->
  QDF.construct str nx classes lamdiff_q delta_q = Ok qd ->
  MALS.construct nx ny lamdiff_l delta_l bias order = Ok ls ->
  (i < size classes)%N -> l \in classes ->
  [/\ 0 <= nth 0 (MAF.lam1 (MAF.run mf mf_calls)) i <= 1
      /\ 0 <= nth 0 (MAF.lam2 (MAF.run mf mf_calls)) i <= 1,
      exists2 p,
        QDF.bufs (QDF.run logdet linalg_solve qd qd_calls) l = Some p
      & 0 <= QDF.lama p <= 1 /\ 0 <= QDF.lamb p <= 1
    & 0 <= MALS.lam0 (MALS.run ls ls_calls) <= 1
      /\ 0 <= MALS.lam1 (MALS.run ls ls_calls) <= 1].
Proof.
move=> dm /andP[gm0 gm1] dq /andP[gq0 gq1] dl /andP[gl0 gl1].
move=> Hmf Hqd Hls Hi Hl; split.
- have H0 : DualRate.in_unit lamdiff_m 2%:R^-1 (2%:R^-1 + lamdiff_m).
    by apply: unit_init => //; lra.
  by have [_ H1 H2] := maf_factors mf_calls (unit_closed dm gm0) H0 Hmf Hi.
- have H0 : DualRate.in_unit lamdiff_q (2%:R / 10%:R)
              (2%:R / 10%:R + lamdiff_q).
    by apply: unit_init => //; lra.
  have [p Hp [_ H1 H2]] :=
    qdf_factors qd_calls (unit_closed dq gq0) H0 Hqd Hl.
  by exists p.
- have H0 : DualRate.in_unit lamdiff_l (9%:R / 10%:R)
              (9%:R / 10%:R + lamdiff_l).
    by apply: unit_init => //; lra.
  by have [_ H1 H2] := mals_factors ls_calls (unit_closed dl gl0) H0 Hls.
Qed.

End FactorClaims.

(** C2 at the classes 0 and 1 with [lamdiff = 1/10], [delta = 1/8] and
    the histories of [Examples]. *)
Lemma forgetting_gap_invariant_witness :
  exists mf qd ls,
    [/\ MAF.__init__ (nn_Module.__init__ nn_Module.__new__) 2 [:: 0; 1]%N
          (Examples.q 1 10) (Examples.q 1 8) = Ok mf,
        QDF.construct Examples.str 2 [:: 0; 1]%N
          (Examples.q 1 10) (Examples.q 1 8) = Ok qd,
        MALS.construct 2 1 (Examples.q 1 10) (Examples.q 1 8) false 1
          = Ok ls
      & [/\ nth 0 (MAF.lam2 (MAF.run mf Examples.mf_calls)) 1
              - nth 0 (MAF.lam1 (MAF.run mf Examples.mf_calls)) 1
              = Examples.q 1 10,
            exists2 p,
              QDF.bufs (QDF.run Examples.logdet Examples.linalg_solve
                          qd Examples.qd_calls) 1%N = Some p
            & QDF.lamb p - QDF.lama p = Examples.q 1 10
          & MALS.lam1 (MALS.run ls Examples.ls_calls)
              - MALS.lam0 (MALS.run ls Examples.ls_calls)
              = Examples.q 1 10]].
Proof.
have [mf Hmf] := maf_init_total 2 [:: 0; 1]%N (Examples.q 1 10)
                   (Examples.q 1 8).
have [qd Hqd _] := @qdf_construct_ok rat nat Examples.str (fun _ _ => True)
                     2 [:: 0; 1]%N (Examples.q 1 10) (Examples.q 1 8) I.
have [ls Hls _] := mals_construct_ok 2 1 (Examples.q 1 10) (Examples.q 1 8)
                     false 1.
exists mf, qd, ls; split; [exact: Hmf | exact: Hqd | exact: Hls |].
exact: (forgetting_gap_invariant Examples.logdet Examples.linalg_solve
          Examples.mf_calls Examples.qd_calls Examples.ls_calls
          Hmf Hqd Hls (isT : (1 < size [:: 0; 1]%N)%N) (mem_last 0%N [:: 1%N])).
Defined.

(** The claim of C3 on a least-squares tracker built with
    [lamdiff = 2/10] and [delta = 1/20]: after one [evaluate_loss] won by
    the fast estimator the slow factor is [21/20]. *)
Lemma forgetting_factors_counterexample :
  exists2 ls,
    MALS.construct 1 1 (Examples.q 2 10) (Examples.q 1 20) false 1 = Ok ls
  & let ls' := MALS.run ls [:: MALS.EvaluateLoss (Examples.col 0)
                                 (Examples.col 1) (Examples.col 0)] in
    (MALS.lam1 ls' == Examples.q 21 20) && ~~ (MALS.lam1 ls' <= 1).
Proof.
have : if MALS.construct 1 1 (Examples.q 2 10) (Examples.q 1 20) false 1
         is Ok ls
       then let ls' := MALS.run ls [:: MALS.EvaluateLoss (Examples.col 0)
                                         (Examples.col 1) (Examples.col 0)] in
            (MALS.lam1 ls' == Examples.q 21 20) && ~~ (MALS.lam1 ls' <= 1)
       else false.
  by vm_compute.
by case: (MALS.construct _ _ _ _ _ _) => // ls H; exists ls.
Qed.

(** C3 as amended at the classes 0 and 1 with [lamdiff = 1/10] and
    [delta = 1/8]. *)
Lemma forgetting_factors_in_unit_witness :
  exists mf qd ls,
    [/\ MAF.__init__ (nn_Module.__init__ nn_Module.__new__) 2 [:: 0; 1]%N
          (Examples.q 1 10) (Examples.q 1 8) = Ok mf,
        QDF.construct Examples.str 2 [:: 0; 1]%N
          (Examples.q 1 10) (Examples.q 1 8) = Ok qd,
        MALS.construct 2 1 (Examples.q 1 10) (Examples.q 1 8) false 1
          = Ok ls
      & [/\ 0 <= nth 0 (MAF.lam1 (MAF.run mf Examples.mf_calls)) 1 <= 1
            /\ 0 <= nth 0 (MAF.lam2 (MAF.run mf Examples.mf_calls)) 1 <= 1,
            exists2 p,
              QDF.bufs (QDF.run Examples.logdet Examples.linalg_solve
                          qd Examples.qd_calls) 1%N = Some p
            & 0 <= QDF.lama p <= 1 /\ 0 <= QDF.lamb p <= 1
          & 0 <= MALS.lam0 (MALS.run ls Examples.ls_calls) <= 1
            /\ 0 <= MALS.lam1 (MALS.run ls Examples.ls_calls) <= 1]].
Proof.
have [mf Hmf] := maf_init_total 2 [:: 0; 1]%N (Examples.q 1 10)
                   (Examples.q 1 8).
have [qd Hqd _] := @qdf_construct_ok rat nat Examples.str (fun _ _ => True)
                     2 [:: 0; 1]%N (Examples.q 1 10) (Examples.q 1 8) I.
have [ls Hls _] := mals_construct_ok 2 1 (Examples.q 1 10) (Examples.q 1 8)
                     false 1.
have Hd : 0 <= Examples.q 1 8 by vm_compute.
have Hm : 0 <= Examples.q 1 10 <= 1 / 2%:R by vm_compute.
have Hq : 0 <= Examples.q 1 10 <= 8%:R / 10%:R by vm_compute.
have Hl : 0 <= Examples.q 1 10 <= 1 / 10%:R by vm_compute.
exists mf, qd, ls; split; [exact: Hmf | exact: Hqd | exact: Hls |].
exact: (forgetting_factors_in_unit Examples.logdet Examples.linalg_solve
          Examples.mf_calls Examples.qd_calls Examples.ls_calls
          Hd Hm Hd Hq Hd Hl
          Hmf Hqd Hls (isT : (1 < size [:: 0; 1]%N)%N) (mem_last 0%N [:: 1%N])).
Defined.

(** ** The accumulator update of the three trackers *)

Section UpdateRule.
Variable R : realFieldType.
Variable label : eqType.

(** C5, amended. Every tracker first takes the statistic of the batch
    alone, and then: the mean tracker sets each running mean of a class to
    [(1 - lam) * empirical + lam * previous] with the factor it has just
    adapted; the discriminant tracker sets each of its eight buffers to
    [(1 - lam) * previous + lam * empirical], so that there [lam] weights
    the new batch; the least-squares tracker sets each normal-equation
    matrix to [lam * previous + empirical], the batch entering with
    weight 1. *)
Theorem accumulator_update_rules
    (lbl0 : label) (mf : MAF.t R label) (x : torch.mat R) (y : seq label)
    (i : nat) (qd : QDF.t R label) (l : label) (p : QDF.params R)
    (ls : MALS.t R) (xs ys : torch.mat R) :
  (i < size (MAF.classes mf))%N ->
  uniq (QDF.classes qd) ->
  (forall c, c \in QDF.classes qd -> QDF.bufs qd c) ->
  l \in QDF.classes qd -> QDF.bufs qd l = Some p ->
  let mf' := (MAF.evaluate_loss mf x y).1 in
  let xbar := MAF.xbar_of mf x y i (nth lbl0 (MAF.classes mf) i) in
  let persist lam empirical previous :=
    torch.vadd (torch.vscale (torch.Fin (1 - lam)) empirical)
               (torch.vscale (torch.Fin lam) previous) in
  let refresh lam previous empirical :=
    torch.madd (torch.mscale (torch.Fin (1 - lam)) previous)
               (torch.mscale (torch.Fin lam) empirical) in
  let i0 := [seq yk != l | yk <- y] in
  let i1 := [seq yk == l | yk <- y] in
  let decay lam previous empirical :=
    torch.madd (torch.mscale (torch.Fin lam) previous) empirical in
  let d := MALS.design ls xs in
  let n := size (MALS.Sxx0 ls) in
  let xx := torch.matmul_T n n d d in
  let xy := torch.matmul_T n (size (head [::] (MALS.Sxy0 ls))) d ys in
  [/\ nth [::] (MAF.m1 mf') i
        = persist (nth 0 (MAF.lam1 mf') i) xbar (nth [::] (MAF.m1 mf) i)
      /\ nth [::] (MAF.m2 mf') i
        = persist (nth 0 (MAF.lam2 mf') i) xbar (nth [::] (MAF.m2 mf) i),
      QDF.bufs (QDF.update qd x y).1 l
        = Some (QDF.Params
                  (refresh (QDF.lama p) (QDF.m0a p) (QDF.empirical_m p i0 x))
                  (refresh (QDF.lama p) (QDF.m1a p) (QDF.empirical_m p i1 x))
                  (refresh (QDF.lamb p) (QDF.m0b p) (QDF.empirical_m p i0 x))
                  (refresh (QDF.lamb p) (QDF.m1b p) (QDF.empirical_m p i1 x))
                  (refresh (QDF.lama p) (QDF.S0a p) (QDF.empirical_S p i0 x))
                  (refresh (QDF.lama p) (QDF.S1a p) (QDF.empirical_S p i1 x))
                  (refresh (QDF.lamb p) (QDF.S0b p) (QDF.empirical_S p i0 x))
                  (refresh (QDF.lamb p) (QDF.S1b p) (QDF.empirical_S p i1 x))
                  (QDF.lama p) (QDF.lamb p))
    & [/\ MALS.Sxx0 (MALS.update ls xs ys)
            = decay (MALS.lam0 ls) (MALS.Sxx0 ls) xx,
          MALS.Sxy0 (MALS.update ls xs ys)
            = decay (MALS.lam0 ls) (MALS.Sxy0 ls) xy,
          MALS.Sxx1 (MALS.update ls xs ys)
            = decay (MALS.lam1 ls) (MALS.Sxx1 ls) xx
        & MALS.Sxy1 (MALS.update ls xs ys)
            = decay (MALS.lam1 ls) (MALS.Sxy1 ls) xy]].
Proof.
move=> Hi Hu Hreg Hl Hp mf' xbar persist refresh i0 i1 decay d n xx xy.
split; last by [].
- have := evaluate_loss_entries lbl0 x y Hi.
  rewrite -/mf' /PerClass.entries /PerClass.step.
  by case: ifP => _ [-> -> -> ->].
- by have [_ ->] := update_tracked x y Hu Hreg Hl Hp.
Qed.

End UpdateRule.

(** The claim of C5 on a discriminant tracker for the classes 0 and 1
    with two features and the batch of [Examples]: the empirical mean of
    class 1 is (0, 1), the buffer [m1a_1] goes from (0, 0) to (0, 1/5),
    and the claimed rule would give (0, 4/5). *)
Lemma accumulator_update_counterexample :
  if QDF.construct Examples.str 2 [:: 0; 1]%N (Examples.q 1 10)
       (Examples.q 1 8) is Ok qd
  then
    if (QDF.bufs qd 1%N,
        QDF.bufs (QDF.update qd Examples.x2 Examples.y01).1 1%N)
      is (Some p, Some p')
    then
      let empirical :=
        QDF.empirical_m p [seq yk == 1%N | yk <- Examples.y01] Examples.x2 in
      let claimed :=
        torch.madd (torch.mscale (torch.Fin (1 - QDF.lama p)) empirical)
                   (torch.mscale (torch.Fin (QDF.lama p)) (QDF.m1a p)) in
      [&& empirical == [:: [:: Examples.f 0 1; Examples.f 1 1]],
          QDF.m1a p == [:: [:: Examples.f 0 1; Examples.f 0 1]],
          QDF.m1a p' == [:: [:: Examples.f 0 1; Examples.f 1 5]],
          claimed == [:: [:: Examples.f 0 1; Examples.f 4 5]]
        & QDF.m1a p' != claimed]
    else false
  else false.
Proof. by vm_compute. Qed.

(** C5 as amended on the trackers of [Examples], for class 1. *)
Lemma accumulator_update_rules_witness :
  exists qd p ls,
    [/\ QDF.construct Examples.str 2 [:: 0; 1]%N (Examples.q 1 10)
          (Examples.q 1 8) = Ok qd,
        QDF.bufs qd 1%N = Some p,
        MALS.construct 2 1 (Examples.q 1 10) (Examples.q 1 8) false 1 = Ok ls,
        let mf := Examples.mf_shared in
        let mf' := (MAF.evaluate_loss mf Examples.x2 Examples.y01).1 in
        let lam := nth 0 (MAF.lam1 mf') 1 in
        nth [::] (MAF.m1 mf') 1
          = torch.vadd
              (torch.vscale (torch.Fin (1 - lam))
                 (MAF.xbar_of mf Examples.x2 Examples.y01 1 1%N))
              (torch.vscale (torch.Fin lam) (nth [::] (MAF.m1 mf) 1))
      & MALS.Sxx0 (MALS.update ls Examples.x2 (Examples.col 1))
          = let d := MALS.design ls Examples.x2 in
            let n := size (MALS.Sxx0 ls) in
            torch.madd (torch.mscale (torch.Fin (MALS.lam0 ls)) (MALS.Sxx0 ls))
                       (torch.matmul_T n n d d)].
Proof.
have [qd Hqd [Hc _ _ Hinv]] :=
  @qdf_construct_ok rat nat Examples.str (fun _ _ => True)
    2 [:: 0; 1]%N (Examples.q 1 10) (Examples.q 1 8) I.
have [ls Hls _] := mals_construct_ok 2 1 (Examples.q 1 10) (Examples.q 1 8)
                     false 1.
have Hl : 1%N \in QDF.classes qd by rewrite Hc.
have Hu : uniq (QDF.classes qd) by rewrite Hc.
have Hreg c : c \in QDF.classes qd -> QDF.bufs qd c.
  by move=> /Hinv[p' ->].
have [p Hp _] := Hinv _ Hl.
have [[H1 _] _ [H3 _ _ _]] :=
  @accumulator_update_rules rat nat 0%N Examples.mf_shared Examples.x2
    Examples.y01 1 qd 1%N p ls Examples.x2 (Examples.col 1)
    isT Hu Hreg Hl Hp.
by exists qd, p, ls; split; [exact: Hqd | exact: Hp | exact: Hls
                          | exact: H1 | exact: H3].
Defined.

(** ** A tracked class without a sample in the batch *)

Section EmptyClass.
Variable R : realFieldType.
Variable label : eqType.
Notation NaN := (torch.NaN R).

(** The loss of the mean tracker is NaN as soon as one row of the
    combined estimate holds two NaN. *)
Lemma loss_nan (self : MAF.t R label) i n :
  (1 < n)%N ->
  nth [::] (MAF.m1 self) i = nseq n NaN ->
  nth [::] (MAF.m2 self) i = nseq n NaN ->
  torch.linalg_norm
    (flatten [seq torch.diagonal 1 (torch.outer_sub row)
             | row <- MAF.mean_estimate self]) = torch.Sqrt NaN.
Proof.
move=> Hn H1 H2; rewrite /torch.linalg_norm; congr torch.Sqrt.
apply: fsum_nan; apply/mapP; exists NaN => //.
have Hne : nseq n NaN != [::] :> torch.vec R.
  by rewrite -size_eq0 size_nseq -lt0n (ltnW Hn).
have Hi1 : (i < size (MAF.m1 self))%N.
  by case: ltnP => // Hle; move: Hne; rewrite -H1 nth_default ?eqxx.
have Hi2 : (i < size (MAF.m2 self))%N.
  by case: ltnP => // Hle; move: Hne; rewrite -H2 nth_default ?eqxx.
apply/flattenP; exists (torch.diagonal 1 (torch.outer_sub (nseq n NaN)));
  last exact: diagonal_nan.
apply/mapP; exists (nseq n NaN) => //.
rewrite /MAF.mean_estimate /torch.mscale /torch.madd.
apply/mapP; exists (torch.vadd (nseq n NaN) (nseq n NaN)).
  apply/mapP; exists (nseq n NaN, nseq n NaN) => //.
  have -> : (nseq n NaN, nseq n NaN)
            = nth ([::], [::]) (zip (MAF.m1 self) (MAF.m2 self)) i.
    by rewrite nth_zip_cond size_zip leq_min Hi1 Hi2 /= H1 H2.
  by apply: mem_nth; rewrite size_zip leq_min Hi1 Hi2.
by rewrite vadd_nan size_nseq minnn vscale_nan.
Qed.

(** C7, amended. On a batch without a sample of a tracked class the
    trackers do not skip the class and do not raise. The mean tracker
    takes the mean over zero rows, which is NaN, adapts the factors of the
    class along the slow branch, overwrites both accumulator rows of the
    class with NaN and, with at least two features, returns a NaN loss.
    [QuadraticDiscriminantFilter.update] returns after taking the mean and
    the covariance of the class over zero rows, which are NaN, and leaves
    only NaN in the in-class buffers of the class. *)
Theorem empty_class_is_not_skipped
    (lbl0 : label) (mf : MAF.t R label) (x : torch.mat R) (y : seq label)
    (i : nat) (qd : QDF.t R label) (l : label) (p : QDF.params R) :
  (i < size (MAF.classes mf))%N ->
  nth lbl0 (MAF.classes mf) i \notin y ->
  (1 < size (nth [::] (MAF.m1 mf) i))%N ->
  size (nth [::] (MAF.m2 mf) i) = size (nth [::] (MAF.m1 mf) i) ->
  uniq (QDF.classes qd) ->
  (forall c, c \in QDF.classes qd -> QDF.bufs qd c) ->
  l \in QDF.classes qd -> QDF.bufs qd l = Some p -> l \notin y ->
  let mf' := (MAF.evaluate_loss mf x y).1 in
  let nx := size (nth [::] (MAF.m1 mf) i) in
  let slow := torch.clip (nth 0 (MAF.lam2 mf) i + MAF.delta mf) 0 1 in
  let i1 := [seq yk == l | yk <- y] in
  let all_nan := all (all (pred1 NaN)) in
  [/\ MAF.xbar_of mf x y i (nth lbl0 (MAF.classes mf) i) = nseq nx NaN,
      nth 0 (MAF.lam2 mf') i = slow
      /\ nth 0 (MAF.lam1 mf') i = slow - MAF.lamdiff mf,
      nth [::] (MAF.m1 mf') i = nseq nx NaN
      /\ nth [::] (MAF.m2 mf') i = nseq nx NaN,
      (MAF.evaluate_loss mf x y).2 = torch.Sqrt NaN
    & [/\ (QDF.update qd x y).2 = Ok tt,
          QDF.empirical_m p i1 x = [:: nseq (size (QDF.S0a p)) NaN]
          /\ QDF.empirical_S p i1 x
             = nseq (size (QDF.S0a p)) (nseq (size (QDF.S0a p)) NaN)
        & exists2 p', QDF.bufs (QDF.update qd x y).1 l = Some p'
          & [/\ all_nan (QDF.m1a p'), all_nan (QDF.m1b p'),
                all_nan (QDF.S1a p') & all_nan (QDF.S1b p')]]].
Proof.
move=> Hi Hy Hn Hsz Hu Hreg Hl Hp Hly mf' nx slow i1 all_nan.
have Hx : MAF.xbar_of mf x y i (nth lbl0 (MAF.classes mf) i) = nseq nx NaN.
  by rewrite /MAF.xbar_of rows_where_absent.
have := evaluate_loss_entries lbl0 x y Hi.
rewrite -/mf' /PerClass.entries step_absent // Hsz minnn.
move=> [Hm1 Hm2 Hl1 Hl2].
have He : QDF.empirical_m p i1 x = [:: nseq (size (QDF.S0a p)) NaN]
          /\ QDF.empirical_S p i1 x
             = nseq (size (QDF.S0a p)) (nseq (size (QDF.S0a p)) NaN).
  by rewrite /QDF.empirical_m /QDF.empirical_S /i1 rows_where_absent.
have Hnan1 : all_nan [:: nseq (size (QDF.S0a p)) NaN].
  by rewrite /all_nan /= all_nseq /= eqxx orbT.
have Hnan2 : all_nan (nseq (size (QDF.S0a p)) (nseq (size (QDF.S0a p)) NaN)).
  by rewrite /all_nan all_nseq all_nseq /= eqxx !orbT.
have [Hret Hb] := update_tracked x y Hu Hreg Hl Hp.
split=> //; first exact: (loss_nan Hn Hm1 Hm2).
split=> //; exists (QDF.update_params x y l p) => //.
rewrite /QDF.update_params /= -/i1; case: He => -> ->.
by split; apply: blend_nan.
Qed.

End EmptyClass.

(** The claim of C7 on the mean tracker of [Examples] and a batch whose
    samples are all of class 0: class 1 is not skipped, its accumulator
    row and its slow factor change, and the loss returned is NaN. *)
Lemma empty_class_counterexample :
  let mf := Examples.mf_shared in
  let r := MAF.evaluate_loss mf Examples.x2 Examples.y00 in
  [&& 1%N \notin Examples.y00,
      nth [::] (MAF.m1 mf) 1 == [:: Examples.f 0 1; Examples.f 1 1],
      nth [::] (MAF.m1 r.1) 1 == [:: torch.NaN rat; torch.NaN rat],
      nth 0 (MAF.lam2 r.1) 1 != nth 0 (MAF.lam2 mf) 1
    & torch.radicand r.2 == torch.NaN rat].
Proof. by vm_compute. Qed.

(** C7 as amended on the trackers of [Examples], for class 1 and the
    batch whose samples are all of class 0. *)
Lemma empty_class_is_not_skipped_witness :
  exists qd p,
    [/\ QDF.construct Examples.str 2 [:: 0; 1]%N (Examples.q 1 10)
          (Examples.q 1 8) = Ok qd,
        QDF.bufs qd 1%N = Some p,
        let r := MAF.evaluate_loss Examples.mf_shared
                   Examples.x2 Examples.y00 in
        nth [::] (MAF.m1 r.1) 1 = nseq 2 (torch.NaN rat)
        /\ r.2 = torch.Sqrt (torch.NaN rat)
      & (QDF.update qd Examples.x2 Examples.y00).2 = Ok tt].
Proof.
have [qd Hqd [Hc _ _ Hinv]] :=
  @qdf_construct_ok rat nat Examples.str (fun _ _ => True)
    2 [:: 0; 1]%N (Examples.q 1 10) (Examples.q 1 8) I.
have Hl : 1%N \in QDF.classes qd by rewrite Hc.
have Hu : uniq (QDF.classes qd) by rewrite Hc.
have Hreg c : c \in QDF.classes qd -> QDF.bufs qd c.
  by move=> /Hinv[p' ->].
have [p Hp _] := Hinv _ Hl.
have [_ _ [H1 _] H2 [H3 _ _]] :=
  @empty_class_is_not_skipped rat nat 0%N Examples.mf_shared Examples.x2
    Examples.y00 1 qd 1%N p isT isT isT (erefl _) Hu Hreg Hl Hp isT.
by exists qd, p; split; [exact: Hqd | exact: Hp | split; [exact: H1 | exact: H2]
                      | exact: H3].
Defined.

Section PolynomialClaim.
Variable R : realFieldType.
Notation NaN := (torch.NaN R).


End PolynomialClaim.


(** The expansion at order 2 of the row (2, 3): the row, then the
    products over (0,0), (0,1), (1,1). *)
Lemma polynomial_expansion_order2 :
  if MALS.construct 2 1 (Examples.q 1 10) (Examples.q 1 8) false 2
    is Ok self
  then MALS.polynomial_expansion self [:: [:: Examples.f 2 1; Examples.f 3 1]]
       == [:: [:: Examples.f 2 1; Examples.f 3 1;
                  Examples.f 4 1; Examples.f 6 1; Examples.f 9 1]]
  else false.
Proof. by vm_compute. Qed.

(** ** The loss of the mean tracker *)

(** C8 on the code. On the freshly initialized tracker and the batch of
    [Examples], where both classes have the mean (0, 1), both rows of
    the combined mean estimate are (0, 1/4) after the update and the
    loss returned is the root of 1/8; and on a tracker whose classes hold
    the distinct means (0, 0) and (1, 1) the loss returned is 0: the
    differences the loss is made of are taken between neighbouring
    coordinates of one class, not between classes. *)
Lemma mean_filter_loss_on_shared_mean :
  (if Examples.mf_fresh is Ok mf then
     let r := MAF.evaluate_loss mf Examples.x2 Examples.y01 in
     [&& MAF.mean_estimate r.1
           == [:: [:: Examples.f 0 1; Examples.f 1 4];
                  [:: Examples.f 0 1; Examples.f 1 4]],
         torch.radicand r.2 == Examples.f 1 8
       & torch.radicand r.2 != Examples.f 0 1]
   else false)
  && (let r := MAF.evaluate_loss Examples.mf_apart Examples.x_apart
                 Examples.y01 in
      (MAF.mean_estimate r.1
         == [:: [:: Examples.f 0 1; Examples.f 0 1];
                [:: Examples.f 1 1; Examples.f 1 1]])
      && (torch.radicand r.2 == Examples.f 0 1)).
Proof. by vm_compute. Qed.

(** * Properties of the data pipeline *)

(** ** Sliding windows over the frames *)

Section WindowLemmas.
Import python dataset.

Lemma slice_arange n lo hi :
  (hi <= n)%N -> slice (arange n) lo hi = iota lo (hi - lo).
Proof.
move=> le_hi; rewrite /slice /arange take_iota.
case: ltnP => [_|le_n]; first by rewrite drop_iota add0n.
have -> : hi = n by apply/eqP; rewrite eqn_leq le_hi.
by rewrite drop_iota add0n.
Qed.

Lemma sliding_window_view_iota lo len w :
  (w <= len)%N ->
  sliding_window_view (iota lo len) w
  = Return [seq iota (lo + j) w | j <- iota 0 (len - w).+1].
Proof.
move=> le_w; rewrite /sliding_window_view size_iota ltnNge le_w [~~ true]/=.
congr Return; apply/eq_in_map => j; rewrite mem_iota add0n ltnS.
move=> /andP[_ le_j].
rewrite drop_iota take_iota.
case: ltnP => // le_len.
congr (iota _ _); apply/eqP; rewrite eqn_leq le_len /=.
by rewrite leq_subRL ?(leq_trans le_j) ?leq_subr // addnC -leq_subRL.
Qed.

Lemma ceil_bound n step k :
  (0 < step)%N -> (k < (n + step.-1) %/ step)%N = (k * step < n)%N.
Proof.
move=> step_gt0; rewrite leq_divRL // mulSn -{1}(prednK step_gt0) addSn -addnS.
by rewrite [(n + _)%N]addnC leq_add2l.
Qed.

Lemma flatten_map1 (A B : Type) (h : A -> B) (ks : seq A) :
  flatten [seq [:: h k] | k <- ks] = [seq h k | k <- ks].
Proof. by elim: ks => //= k ks ->. Qed.

Lemma every_map (A : Type) (f : nat -> A) step n :
  (0 < step)%N ->
  every step [seq f j | j <- iota 0 n]
  = Return [seq f (k * step)%N | k <- iota 0 ((n + step.-1) %/ step)].
Proof.
move=> step_gt0; rewrite /every; case: eqP (step_gt0) => [->//|_ _].
congr Return; rewrite size_map size_iota -[RHS]flatten_map1; congr (flatten _).
apply/eq_in_map => k; rewrite mem_iota add0n ceil_bound // => /andP[_ lt_n].
rewrite -map_drop drop_iota add0n.
have -> : (n - k * step = (n - (k * step).+1).+1)%N.
  by rewrite subnS prednK // subn_gt0.
by rewrite /= take0.
Qed.

Lemma np_sub_same (a : seq int) :
  exists2 d, np_sub a a = Return d & np_sum d = 0.
Proof.
rewrite /np_sub eqxx; eexists; first by reflexivity.
by elim: a => //= x a ->; rewrite subrr addr0.
Qed.

Lemma long_enough (lo hi window : nat) :
  (window%:Z <= hi%:Z - lo%:Z) = (lo + window <= hi)%N.
Proof. by rewrite lerBrDr -PoszD lez_nat addnC. Qed.

Lemma second_window_check_ok n lo hi stride window :
  (0 < stride)%N -> (lo + window <= hi)%N -> (hi <= n)%N ->
  second_window_check (arange n) (Windows.run_windows lo hi stride window)
    lo stride window = Return tt.
Proof.
move=> stride_gt0 le_hi le_n; rewrite /second_window_check /Windows.run_windows.
rewrite size_map size_iota; case: ifP => // two.
rewrite (nth_map 0%N) ?size_iota // nth_iota // add0n mul1n.
have le_s : (lo + window + stride <= hi)%N.
  by move: two; rewrite ceil_bound // mul1n ltnS -subnDA leq_subRL.
rewrite slice_arange ?(leq_trans le_s) //.
have -> : (lo + window + stride - (lo + stride) = window)%N.
  by rewrite addnAC addnC addnK.
by have [d -> /= ->] := np_sub_same [seq k%:Z | k <- iota (lo + stride) window].
Qed.

End WindowLemmas.

Section Boundaries.
Import python dataset Windows.
Variables (x0 : int) (r : seq int).
Let ids := x0 :: r.
Let n := size ids.
Let ch := boundaries ids.

Lemma id_changeE : id_change ids = Return ch.
Proof. by []. Qed.

Lemma size_id_diff : size (np_diff (x0 :: ids)) = n.
Proof. by rewrite /np_diff size_map size_iota. Qed.

Lemma nth_id_diff j :
  (j < n)%N -> (nth 0 (np_diff (x0 :: ids)) j != 0) = (0 < j)%N && change ids j.
Proof.
move=> lt_j; rewrite /np_diff (nth_map 0%N) ?size_iota // nth_iota // add0n.
by rewrite subr_eq0 /change; case: j lt_j => [|j] //= _; rewrite eqxx.
Qed.

Lemma mem_where j :
  (j \in where_nonzero (np_diff (x0 :: ids)))
  = [&& (0 < j)%N, (j < n)%N & change ids j].
Proof.
rewrite /where_nonzero mem_filter mem_iota add0n size_id_diff leq0n /=.
by case: ltnP => [/nth_id_diff->|_]; rewrite ?andbF // andbT.
Qed.

Lemma mem_boundaries a : (a \in ch) = run_start ids a || (a == n).
Proof.
rewrite /ch /boundaries inE mem_cat mem_where inE orbA /run_start -/n.
congr (_ || _); rewrite -/(change ids a).
by case: a => [|a] //=; rewrite andbC.
Qed.

Lemma boundaries_sorted : sorted ltn ch.
Proof.
rewrite /ch /boundaries /= cat_path (path_sortedE ltn_trans) /=.
rewrite (sorted_filter ltn_trans) ?iota_ltn_sorted // andbT.
apply/andP; split.
  by apply/allP => j; rewrite -/(where_nonzero _) mem_where => /and3P[].
rewrite andbT; have := mem_last 0%N (where_nonzero (np_diff (x0 :: ids))).
by rewrite inE mem_where => /orP[/eqP->|/and3P[]].
Qed.

Lemma size_boundaries : (1 < size ch)%N.
Proof. by rewrite /ch /boundaries /= size_cat addnC. Qed.

Lemma boundaries_le a : a \in ch -> (a <= n)%N.
Proof.
rewrite mem_boundaries => /orP[/andP[/ltnW]|/eqP->] //.
Qed.

Lemma nth_boundaries_le i : (nth 0%N ch i <= n)%N.
Proof.
case: (ltnP i (size ch)) => [lt_i|le_i]; last by rewrite nth_default.
by apply: boundaries_le; rewrite mem_nth.
Qed.

Lemma boundaries_lt i :
  (i.+1 < size ch)%N -> (nth 0%N ch i < nth 0%N ch i.+1)%N.
Proof.
move=> lt_i.
apply: (sorted_ltn_nth ltn_trans 0%N boundaries_sorted); rewrite ?inE //.
exact: ltnW.
Qed.

(** No boundary lies strictly between two neighbours of [ch]. *)
Lemma boundaries_gap i j :
  (i.+1 < size ch)%N -> (nth 0%N ch i < j < nth 0%N ch i.+1)%N -> j \notin ch.
Proof.
move=> lt_i /andP[lt_lo lt_hi]; apply/negP => /(nthP 0%N)[m lt_m eq_j].
have mono := sorted_ltn_nth ltn_trans 0%N boundaries_sorted.
case: (ltngtP m i) => [lt_mi|lt_im|eq_mi].
- have := mono m i lt_m (ltnW lt_i) lt_mi.
  by rewrite eq_j ltnNge (ltnW lt_lo).
- move: lt_im; rewrite leq_eqVlt => /orP[/eqP eq_m|lt_i1].
    by move: lt_hi; rewrite -eq_j -eq_m ltnn.
  have := mono i.+1 m lt_i lt_m lt_i1.
  by rewrite eq_j ltnNge (ltnW lt_hi).
- by move: lt_lo; rewrite -eq_j eq_mi ltnn.
Qed.

Lemma run_no_change i j :
  (i.+1 < size ch)%N -> (nth 0%N ch i < j < nth 0%N ch i.+1)%N ->
  ~~ change ids j.
Proof.
move=> lt_i lt_j; have := boundaries_gap lt_i lt_j.
rewrite mem_boundaries negb_or /run_start -/(change ids j) => /andP[+ _].
case/andP: lt_j => lt_lo lt_hi.
have -> : (j < size ids)%N by rewrite (leq_trans lt_hi) // nth_boundaries_le.
by rewrite /= negb_or => /andP[].
Qed.

Lemma constant_onP s len :
  reflect (forall j, (s <= j < s + len)%N -> nth 0 ids j = nth 0 ids s)
          (constant_on ids s len).
Proof.
apply: (iffP allP) => [H j lt_j|H j]; first by apply/eqP/H; rewrite mem_iota.
by rewrite mem_iota => /H->.
Qed.

Lemma run_constant i :
  (i.+1 < size ch)%N ->
  constant_on ids (nth 0%N ch i) (nth 0%N ch i.+1 - nth 0%N ch i).
Proof.
move=> lt_i; apply/constant_onP => j.
rewrite subnKC ?(ltnW (boundaries_lt lt_i)) //.
case/andP=> le_j lt_j.
elim: j le_j lt_j => [|j IH]; first by rewrite leqn0 => /eqP->.
rewrite leq_eqVlt => /orP[/eqP->//|lt_lo] lt_hi.
have := @run_no_change i j.+1 lt_i; rewrite lt_lo lt_hi => /(_ isT).
by rewrite /change negbK /= => /eqP->; apply: IH => //; apply: ltnW.
Qed.

Lemma stretch_no_change s len j :
  constant_on ids s len -> (s < j < s + len)%N -> ~~ change ids j.
Proof.
move/constant_onP => H /andP[lt_s lt_j]; rewrite /change negbK.
rewrite (H j) ?(ltnW lt_s) // (H j.-1) //.
by case: j lt_s lt_j => // j; rewrite ltnS /= => -> /ltnW.
Qed.

(** A stretch with one identifier that begins inside a run ends inside it. *)
Lemma stretch_in_run i s len :
  (i.+1 < size ch)%N -> (nth 0%N ch i <= s < nth 0%N ch i.+1)%N ->
  constant_on ids s len -> (s + len <= n)%N ->
  (s + len <= nth 0%N ch i.+1)%N.
Proof.
move=> lt_i /andP[le_s lt_s] const le_n; rewrite leqNgt; apply/negP => lt_hi.
have : nth 0%N ch i.+1 \in ch by rewrite mem_nth.
rewrite mem_boundaries /run_start -/(change ids _).
rewrite (negbTE (stretch_no_change const _)) ?lt_s // orbF.
have -> : (nth 0%N ch i.+1 == 0%N) = false.
  by apply/negbTE; rewrite -lt0n (leq_ltn_trans _ lt_s).
by rewrite andbF orFb => /eqP eq_n; move: lt_hi; rewrite eq_n ltnNge le_n.
Qed.

(** Every frame lies in one run. *)
Lemma run_cover s :
  (s < n)%N ->
  exists2 i, (i.+1 < size ch)%N & (nth 0%N ch i <= s < nth 0%N ch i.+1)%N.
Proof.
elim: s => [|s IH] lt_s.
  exists 0%N; first exact: size_boundaries.
  by have := @boundaries_lt 0 size_boundaries.
have [i lt_i /andP[le_lo lt_hi]] := IH (ltnW lt_s).
move: lt_hi; rewrite leq_eqVlt => /orP[/eqP eq_hi|lt_hi]; last first.
  by exists i => //; rewrite lt_hi (leq_trans le_lo).
have lt_i2 : (i.+2 < size ch)%N.
  rewrite ltn_neqAle lt_i andbT; apply/eqP => eq_sz.
  have : nth 0%N ch i.+1 = n.
    have -> : i.+1 = (size ch).-1 by rewrite -eq_sz.
    by rewrite nth_last /ch /boundaries /= last_cat.
  by move=> eq_n; move: lt_s; rewrite eq_hi eq_n ltnn.
by exists i.+1 => //; rewrite -eq_hi leqnn /= eq_hi boundaries_lt.
Qed.

End Boundaries.

Section Loop.
Import python dataset Windows.

Lemma and_then_Return (A B : Type) (a : A) (k : A -> outcome B) :
  and_then (Return a) k = k a.
Proof. by []. Qed.

Lemma segmentE n ch stride window acc i :
  (0 < stride)%N -> (nth 0%N ch i.+1 <= n)%N ->
  segment (arange n) ch stride window acc i
  = Return (if long_run ch window i
            then acc ++ [:: run_windows (nth 0%N ch i) (nth 0%N ch i.+1)
                                        stride window]
            else acc).
Proof.
move=> stride_gt0 le_n; rewrite /segment long_enough /long_run.
case: ifP => // le_hi.
have le_lo : (nth 0%N ch i <= nth 0%N ch i.+1)%N.
  exact: leq_trans (leq_addr _ _) le_hi.
have le_w : (window <= nth 0%N ch i.+1 - nth 0%N ch i)%N by rewrite leq_subRL.
rewrite slice_arange // sliding_window_view_iota // and_then_Return.
rewrite (every_map (fun j => iota (nth 0%N ch i + j) window)) //.
rewrite and_then_Return.
by rewrite -/(run_windows _ _ _ _) second_window_check_ok.
Qed.

Lemma segment_step0 n ch window acc i :
  (nth 0%N ch i.+1 <= n)%N ->
  segment (arange n) ch 0 window acc i
  = if long_run ch window i then Raised ValueError else Return acc.
Proof.
move=> le_n; rewrite /segment long_enough /long_run.
case: ifP => // le_hi.
have le_lo : (nth 0%N ch i <= nth 0%N ch i.+1)%N.
  exact: leq_trans (leq_addr _ _) le_hi.
have le_w : (window <= nth 0%N ch i.+1 - nth 0%N ch i)%N by rewrite leq_subRL.
by rewrite slice_arange // sliding_window_view_iota.
Qed.

Lemma loopE n ch stride window range acc :
  (0 < stride)%N -> (forall i, nth 0%N ch i <= n)%N ->
  loop (segment (arange n) ch stride window) acc range
  = Return (acc ++ [seq run_windows (nth 0%N ch i) (nth 0%N ch i.+1)
                                    stride window
                   | i <- range & long_run ch window i]).
Proof.
move=> stride_gt0 le_n; elim: range acc => [|i range IH] acc /=.
  by rewrite cats0.
rewrite segmentE //=; case: ifP => _; rewrite IH //.
by rewrite -catA.
Qed.

Lemma loop_step0 n ch window range acc :
  (forall i, nth 0%N ch i <= n)%N ->
  loop (segment (arange n) ch 0 window) acc range
  = if has (long_run ch window) range then Raised ValueError else Return acc.
Proof.
move=> le_n; elim: range acc => [|i range IH] acc //=.
by rewrite segment_step0 //; case: (long_run ch window i) => //=; rewrite IH.
Qed.

Lemma get_window_indicesE ids stride window :
  get_window_indices ids stride window
  = if ids is [::] then Raised IndexError
    else if ~~ has (long_run (boundaries ids) window)
                   (iota 0 (size (boundaries ids)).-1) then Raised RuntimeError
    else if stride == 0%N then Raised ValueError
    else Return (flatten (all_windows ids stride window)).
Proof.
case: ids => [|x0 r] //.
rewrite /get_window_indices id_changeE and_then_Return.
have le_n i : (nth 0%N (boundaries (x0 :: r)) i <= size (x0 :: r))%N.
  exact: nth_boundaries_le.
case: (posnP stride) => [->|stride_gt0].
  by rewrite loop_step0 //; case: (has _ _).
rewrite loopE // cat0s and_then_Return -/(all_windows _ _ _) has_filter.
rewrite /all_windows.
by case: (filter _ _) => [|i s].
Qed.

End Loop.

Section WindowTheorems.
Import python dataset Windows.

Lemma constant_on_le ids s len len' :
  (len' <= len)%N -> constant_on ids s len -> constant_on ids s len'.
Proof.
move=> le_len /allP H; apply/allP => j; rewrite mem_iota => /andP[le_j lt_j].
by apply: H; rewrite mem_iota le_j (leq_trans lt_j) // leq_add2l.
Qed.

Lemma ltn_pred_size (ch : seq nat) i :
  (i \in iota 0 (size ch).-1) = (i.+1 < size ch)%N.
Proof. by rewrite mem_iota add0n leq0n andTb ltn_predRL. Qed.

Lemma has_long_run x0 r window :
  has (long_run (boundaries (x0 :: r)) window)
      (iota 0 (size (boundaries (x0 :: r))).-1)
  = fits (x0 :: r) window.
Proof.
set ids := x0 :: r; set ch := boundaries ids.
apply/idP/idP.
  case/hasP => i; rewrite ltn_pred_size => lt_i long.
  have le_hi : (nth 0%N ch i.+1 <= size ids)%N by apply: nth_boundaries_le.
  have le_n : (nth 0%N ch i + window <= size ids)%N := leq_trans long le_hi.
  have le_w : (window <= size ids)%N := leq_trans (leq_addl _ _) le_n.
  rewrite /fits le_w; apply/hasP; exists (nth 0%N ch i).
    by rewrite mem_iota add0n leq0n andTb ltnS leq_subRL // addnC.
  apply: constant_on_le (run_constant lt_i).
  by rewrite leq_subRL // (leq_trans (leq_addr _ _) long).
case/andP=> le_w /hasP[s]; rewrite mem_iota add0n leq0n andTb ltnS.
move=> le_s const.
have le_n : (s + window <= size ids)%N by rewrite addnC -leq_subRL.
case: (ltnP s (size ids)) => [lt_s|le_ns].
  have [i lt_i in_run] := run_cover lt_s.
  have le_hi := stretch_in_run lt_i in_run const le_n.
  apply/hasP; exists i; first by rewrite ltn_pred_size.
  rewrite /long_run; apply: leq_trans le_hi.
  by rewrite leq_add2r; case/andP: in_run.
have w0 : window = 0%N.
  apply/eqP; rewrite -leqn0 -(leq_add2l s) addn0.
  exact: leq_trans le_n le_ns.
apply/hasP; exists 0%N; first by rewrite ltn_pred_size; apply: size_boundaries.
by rewrite /long_run w0 addn0; apply/ltnW/boundaries_lt/size_boundaries.
Qed.

Lemma run_windows_nonempty lo hi stride window :
  (0 < stride)%N -> run_windows lo hi stride window != [::].
Proof.
move=> stride_gt0; rewrite -size_eq0 /run_windows size_map size_iota -lt0n.
by rewrite ceil_bound.
Qed.

Lemma all_windows_nonempty x0 r stride window :
  (0 < stride)%N -> fits (x0 :: r) window ->
  flatten (all_windows (x0 :: r) stride window) != [::].
Proof.
move=> stride_gt0; rewrite -has_long_run has_filter /all_windows.
case: (filter _ _) => [|i s] //= _.
by have := run_windows_nonempty (nth 0%N (boundaries (x0 :: r)) i)
     (nth 0%N (boundaries (x0 :: r)) i.+1) window stride_gt0; case: run_windows.
Qed.

(** X1. [get_window_indices] ends in one of four ways, each under its own
    condition: it raises [IndexError] exactly when there are no frames;
    with frames, it raises the [RuntimeError] of [torch.cat] on an empty
    list exactly when no stretch of [window] frames carries one
    identifier; with such a stretch it raises [ValueError] exactly when
    [stride] is zero, and otherwise returns a tensor with at least one
    window.  In particular the assertion on the second window of a run
    never fails, and its subtraction never meets arrays of different
    lengths. *)
Theorem get_window_indices_outcome (ids : seq int) (stride window : nat) :
  match get_window_indices ids stride window with
  | Return W =>
      [/\ ids <> [::], (0 < stride)%N, fits ids window & W <> [::]]
  | Raised IndexError => ids = [::]
  | Raised RuntimeError => ids <> [::] /\ ~~ fits ids window
  | Raised ValueError => [/\ ids <> [::], fits ids window & stride = 0%N]
  | Raised _ => False
  end.
Proof.
rewrite get_window_indicesE; case: ids => [|x0 r] //.
rewrite has_long_run; case: ifP => [nfits|/negbFE yes]; first by split.
case: (posnP stride) => [->|stride_gt0]; first by split.
by split=> //; apply/eqP; apply: all_windows_nonempty.
Qed.

Lemma mem_run_windows lo hi stride window wnd :
  (0 < stride)%N -> (lo + window <= hi)%N ->
  reflect (exists2 k, (lo + k * stride + window <= hi)%N
                    & wnd = iota (lo + k * stride) window)
          (wnd \in run_windows lo hi stride window).
Proof.
move=> stride_gt0 le_hi; rewrite /run_windows.
have bound k : (k < ((hi - lo - window).+1 + stride.-1) %/ stride)%N
               = (lo + k * stride + window <= hi)%N.
  rewrite ceil_bound // ltnS -subnDA leq_subRL //.
  by rewrite addnAC.
apply: (iffP mapP) => [[k]|[k le_k ->]].
  by rewrite mem_iota add0n leq0n andTb bound => le_k ->; exists k.
by exists k => //; rewrite mem_iota add0n leq0n andTb bound.
Qed.

Lemma mem_get_window_indices (ids : seq int) (stride window : nat)
    (W : seq (seq nat)) (wnd : seq nat) :
  get_window_indices ids stride window = Return W ->
  wnd \in W <->
  exists a k, [/\ run_start ids a,
                  constant_on ids a (k * stride + window),
                  (a + k * stride + window <= size ids)%N
                & wnd = iota (a + k * stride) window].
Proof.
rewrite get_window_indicesE; case: ids => [|x0 r] //.
set ids := x0 :: r; set ch := boundaries ids.
case: ifP => // _; case: (posnP stride) => // stride_gt0 [<-].
split.
  case/flattenP => ws /mapP[i]; rewrite mem_filter ltn_pred_size.
  case/andP=> long lt_i -> /(mem_run_windows _ stride_gt0 long)[k le_k ->].
  exists (nth 0%N ch i), k; split=> //.
  - have : nth 0%N ch i \in ch by rewrite mem_nth // ltnW.
    rewrite mem_boundaries => /orP[//|/eqP eq_n].
    have := boundaries_lt lt_i; rewrite -/ch eq_n ltnNge.
    by rewrite -/ids nth_boundaries_le.
  - apply: constant_on_le (run_constant lt_i).
    by rewrite leq_subRL ?addnA // (leq_trans (leq_addr _ _) long).
  - exact: leq_trans le_k (nth_boundaries_le _ _ _).
case=> a [k [start const le_n ->]].
have /(nthP 0%N)[i lt_i eq_a] : a \in ch by rewrite mem_boundaries start.
have lt_a : (a < size ids)%N by case/andP: start.
have lt_i1 : (i.+1 < size ch)%N.
  rewrite ltn_neqAle lt_i andbT; apply/eqP => eq_sz.
  have : nth 0%N ch i = size ids.
    have -> : i = (size ch).-1 by rewrite -eq_sz.
    by rewrite nth_last /ch /boundaries /= last_cat.
  by move=> eq_n; move: lt_a; rewrite -eq_a eq_n ltnn.
have in_run : (nth 0%N ch i <= a < nth 0%N ch i.+1)%N.
  by rewrite eq_a leqnn /= -eq_a; apply: boundaries_lt.
have := stretch_in_run lt_i1 in_run const; rewrite addnA => /(_ le_n) le_hi.
have long : long_run ch window i.
  rewrite /long_run eq_a; apply: leq_trans le_hi.
  by rewrite leq_add2r leq_addr.
apply/flattenP.
exists (run_windows (nth 0%N ch i) (nth 0%N ch i.+1) stride window).
  by apply/mapP; exists i => //; rewrite mem_filter long ltn_pred_size.
by apply/(mem_run_windows _ stride_gt0 long); exists k; rewrite eq_a.
Qed.

Lemma constant_on_shift ids a k w :
  constant_on ids a (k + w) -> constant_on ids (a + k) w.
Proof.
move/allP => H; apply/allP => j; rewrite mem_iota => /andP[le_j lt_j].
have in_j : j \in iota a (k + w).
  by rewrite mem_iota addnA lt_j (leq_trans (leq_addr _ _) le_j).
have in_a : (a + k)%N \in iota a (k + w).
  by rewrite mem_iota leq_addr /= addnA (leq_ltn_trans le_j lt_j).
by rewrite (eqP (H _ in_j)) (eqP (H _ in_a)).
Qed.

(** A returned window is a stretch of [window] frames of one identifier. *)
Lemma get_window_indices_stretch ids stride window W wnd :
  get_window_indices ids stride window = Return W -> wnd \in W ->
  exists s, [/\ wnd = iota s window, (s + window <= size ids)%N
               & constant_on ids s window].
Proof.
move=> eqW /(mem_get_window_indices _ eqW)[a [k [_ const le_n ->]]].
by exists (a + k * stride)%N; split=> //; apply: constant_on_shift.
Qed.

(** X2. The windows [get_window_indices] returns are exactly these: the
    [window] consecutive frames that start [k * stride] frames after the
    first frame [a] of a run of one identifier, for every [a] and [k] such
    that the frames from [a] to the end of the window carry one
    identifier and lie in the recording.  So no window straddles a change
    of identifier, and none that fits on the stride grid of its run is
    left out. *)
Theorem get_window_indices_member (ids : seq int) (stride window : nat)
    (W : seq (seq nat)) (wnd : seq nat) :
  get_window_indices ids stride window = Return W ->
  wnd \in W <->
  exists a k, [/\ run_start ids a,
                  constant_on ids a (k * stride + window),
                  (a + k * stride + window <= size ids)%N
                & wnd = iota (a + k * stride) window].
Proof. exact: mem_get_window_indices. Qed.

End WindowTheorems.

Section OneIdentifier.
Import python dataset Windows.

Lemma boundaries_nseq (x : int) n :
  boundaries (nseq n.+1 x) = [:: 0%N; n.+1].
Proof.
rewrite /boundaries size_nseq [head _ _]/=.
case E : (where_nonzero _) => [|j s] //.
have : j \in where_nonzero (np_diff (x :: nseq n.+1 x)) by rewrite E inE eqxx.
rewrite [nseq n.+1 x]/= mem_where -[x :: nseq n x]/(nseq n.+1 x) /change.
rewrite size_nseq => /and3P[j_gt0 lt_j]; rewrite !nth_nseq lt_j.
by rewrite (leq_ltn_trans (leq_pred j) lt_j) eqxx.
Qed.

(** X3. On a recording of [n] frames with one identifier everywhere, a
    positive [stride] and a [window] of at most [n] frames,
    [get_window_indices] returns the [(n - window) / stride + 1] windows
    that start at the frames 0, [stride], [2 * stride], ... *)
Theorem get_window_indices_one_id (x : int) (n stride window : nat) :
  (0 < stride)%N -> (window <= n)%N -> (0 < n)%N ->
  get_window_indices (nseq n x) stride window
  = Return [seq iota (k * stride) window
           | k <- iota 0 ((n - window) %/ stride).+1].
Proof.
move=> stride_gt0 le_w; case: n le_w => // n le_w _.
rewrite get_window_indicesE [nseq n.+1 x]/= -[x :: nseq n x]/(nseq n.+1 x).
rewrite /all_windows boundaries_nseq [iota _ _]/= /long_run /= add0n le_w /=.
rewrite -[stride == 0%N]negbK -lt0n stride_gt0 /= cats0 /run_windows subn0.
rewrite addSn -addnS prednK // divnDr ?dvdnn // divnn stride_gt0 addn1.
by congr Return; apply: eq_map => k; rewrite add0n.
Qed.

End OneIdentifier.

Section WindowOrder.
Import python dataset Windows.

Lemma pairwise_flatten (B : nat -> seq nat) (lo hi : nat -> nat) (I : seq nat) :
  (forall i, i \in I -> pairwise ltn (B i)) ->
  (forall i s, i \in I -> s \in B i -> (lo i <= s < hi i)%N) ->
  pairwise (fun i j => hi i <= lo j)%N I ->
  pairwise ltn (flatten [seq B i | i <- I]).
Proof.
elim: I => [|i I IH] //= sortedB inB /andP[/allP le_i pw].
have sortedI j : j \in I -> pairwise ltn (B j).
  by move=> in_j; apply: sortedB; rewrite inE in_j orbT.
have inI j s : j \in I -> s \in B j -> (lo j <= s < hi j)%N.
  by move=> in_j; apply: inB; rewrite inE in_j orbT.
rewrite pairwise_cat sortedB ?mem_head // (IH sortedI inI pw).
rewrite !andbT; apply/allrelP => s t in_s /flattenP[ts /mapP[j in_j ->] in_t].
have /andP[_ lt_s] := inB i s (mem_head _ _) in_s.
have /andP[le_t _] : (lo j <= t < hi j)%N.
  by apply: inB => //; rewrite inE in_j orbT.
exact: leq_trans lt_s (leq_trans (le_i j in_j) le_t).
Qed.

Lemma heads_run_windows lo hi stride window :
  (0 < window)%N ->
  [seq head 0%N wnd | wnd <- run_windows lo hi stride window]
  = [seq (lo + k * stride)%N
    | k <- iota 0 (((hi - lo - window).+1 + stride.-1) %/ stride)].
Proof.
move=> window_gt0; rewrite /run_windows -map_comp; apply: eq_map => k /=.
by case: window window_gt0.
Qed.

(** X4. The windows of a returned tensor come in the order of their
    first frames, which increase strictly when [window] is positive: no
    window is returned twice. *)
Theorem get_window_indices_sorted (ids : seq int) (stride window : nat)
    (W : seq (seq nat)) :
  get_window_indices ids stride window = Return W -> (0 < window)%N ->
  sorted ltn [seq head 0%N wnd | wnd <- W] /\ uniq W.
Proof.
move=> eqW window_gt0.
suff srt : sorted ltn [seq head 0%N wnd | wnd <- W].
  by split=> //; apply/map_uniq/(sorted_uniq ltn_trans ltnn)/srt.
move: eqW; rewrite get_window_indicesE; case: ids => [|x0 r] //.
set ids := x0 :: r; set ch := boundaries ids.
case: ifP => // _; case: (posnP stride) => // stride_gt0 [<-].
rewrite (sorted_pairwise ltn_trans) map_flatten /all_windows -/ch -map_comp.
set I := filter _ _.
rewrite (eq_map (fun i => heads_run_windows (nth 0%N ch i) (nth 0%N ch i.+1)
                             stride window_gt0)).
have inI i : i \in I -> long_run ch window i /\ (i.+1 < size ch)%N.
  by rewrite mem_filter ltn_pred_size => /andP[].
apply: (@pairwise_flatten _ (nth 0%N ch) (fun i => nth 0%N ch i.+1)).
- move=> i _; rewrite -(sorted_pairwise ltn_trans) sorted_map.
  apply: sub_sorted (iota_ltn_sorted 0 _) => k k' /= lt_k.
  by rewrite ltn_add2l ltn_pmul2r.
- move=> i s /inI[long lt_i] /mapP[k]; rewrite mem_iota add0n leq0n andTb.
  rewrite ceil_bound // ltnS -subnDA leq_subRL // => le_k ->.
  rewrite leq_addr /=; apply: leq_trans le_k.
  by rewrite ltn_add2r -[X in (X < _)%N]addn0 ltn_add2l.
- have : pairwise ltn I.
    rewrite -(sorted_pairwise ltn_trans).
    by rewrite /I (sorted_filter ltn_trans) // iota_ltn_sorted.
  apply: (@sub_in_pairwise _ [pred i | i.+1 < size ch]%N).
    move=> i j /=; rewrite !inE => lt_i lt_j lt_ij.
    have srt : sorted leq ch.
      by apply: sub_sorted (boundaries_sorted x0 r) => a b /ltnW.
    exact: (sorted_leq_nth leq_trans leqnn 0%N srt i.+1 j lt_i (ltnW lt_j)
              lt_ij).
  by apply/allP => i /inI[].
Qed.

End WindowOrder.

(** ** Items of the data set *)

Section DatasetLemmas.
Import python MouseDataset Items.
Variable key : eqType.
Variable T : eqType.
Implicit Types (d : dict key (seq T)) (q : dict key (item T)).

Lemma getitem_in_range (A : Type) (x0 : A) (a : seq A) (i : int) :
  in_range (size a) i -> getitem a i = Return (nth x0 a (position (size a) i)).
Proof.
have at_ k : (k < size a)%N ->
    (if drop k a is x :: _ then Return x else Raised IndexError)
    = Return (nth x0 a k).
  move=> lt_k; rewrite -{2}(cat_take_drop k a) nth_cat size_take_min.
  rewrite (minn_idPl (ltnW lt_k)) ltnn subnn.
  case: (drop k a) (size_drop k a) => [|x s] //= /esym/eqP.
  by rewrite subn_eq0 leqNgt lt_k.
case: i => k /= lt_k; first exact: at_.
by rewrite lt_k at_ // ltn_subrL (leq_ltn_trans _ lt_k).
Qed.

Lemma getitem_out_of_range (A : Type) (a : seq A) (i : int) :
  ~~ in_range (size a) i -> getitem a i = Raised IndexError.
Proof.
case: i => k /=; last by move/negbTE->.
by rewrite -leqNgt => le_k; rewrite drop_oversize.
Qed.

Lemma take_frames_iota (a : seq T) s w :
  (s + w <= size a)%N -> take_frames a (iota s w) = Return (take w (drop s a)).
Proof.
elim: w s => [|w IH] s /=; first by rewrite take0.
rewrite addnS => lt_s.
case E : (drop s a) => [|x xs].
  move: (size_drop s a); rewrite E /= => /esym/eqP.
  by rewrite subn_eq0 leqNgt (leq_trans _ lt_s) // ltnS leq_addr.
rewrite /= IH ?addSn //.
by rewrite -addn1 addnC -drop_drop E /= drop0.
Qed.

Lemma lookup_uniq d k a :
  uniq [seq kv.1 | kv <- d] -> (k, a) \in d -> lookup d k = Return a.
Proof.
rewrite /lookup; elim: d => [|[k' a'] d IH] //= /andP[notin uq].
rewrite inE => /orP[/eqP[-> ->]|in_d]; first by rewrite eqxx.
case: eqP => [eq_k|_]; last exact: IH.
by case/negP: notin; rewrite eq_k; apply/mapP; exists (k, a).
Qed.

Lemma setitem_fresh q k (v : item T) :
  k \notin [seq kv.1 | kv <- q] -> setitem q k v = rcons q (k, v).
Proof. by rewrite /setitem => /negbTE->. Qed.

Lemma take_frames_nth (x0 : T) (a : seq T) inds :
  all (fun j => j < size a)%N inds ->
  take_frames a inds = Return [seq nth x0 a j | j <- inds].
Proof.
elim: inds => [|j inds IH] //= /andP[lt_j lt_inds].
have := @getitem_in_range _ x0 a (Posz j) lt_j; rewrite /getitem /= => ->.
by rewrite /= IH.
Qed.

Lemma comprehension_map (A B : Type) (h : A -> B)
    (f : B -> outcome (option (key * item T))) q (s : seq A) :
  comprehension f q (map h s) = comprehension (f \o h) q s.
Proof. by elim: s q => [|x s IH] q //=; case: (f (h x)) => //= e. Qed.

(** A comprehension whose keys are new and distinct appends its entries. *)
Lemma comprehension_filter (A : eqType)
    (f : A -> outcome (option (key * item T))) (p : pred A)
    (g : A -> key * item T) q (s : seq A) :
  (forall x, x \in s -> f x = Return (if p x then Some (g x) else None)) ->
  uniq [seq (g x).1 | x <- s & p x] ->
  (forall x, x \in s -> p x -> (g x).1 \notin [seq kv.1 | kv <- q]) ->
  comprehension f q s = Return (q ++ [seq g x | x <- s & p x]).
Proof.
elim: s q => [|x s IH] q /= fE uq fresh; first by rewrite cats0.
rewrite fE ?mem_head //=.
have fE' y : y \in s -> f y = Return (if p y then Some (g y) else None).
  by move=> in_y; apply: fE; rewrite inE in_y orbT.
case: ifP uq => px /=; last first.
  move=> uq; apply: IH => // y in_y; apply: fresh.
  by rewrite inE in_y orbT.
case/andP=> notin uq.
rewrite (setitem_fresh _ (fresh _ (mem_head _ _) px)).
rewrite -surjective_pairing IH ?cat_rcons // => y in_y py.
rewrite map_rcons mem_rcons inE negb_or; apply/andP; split; last first.
  by apply: fresh => //; rewrite inE in_y orbT.
apply: contraNneq notin => <-; apply/mapP; exists y => //.
by rewrite mem_filter py.
Qed.

Lemma update_fresh q (q' : dict key (item T)) :
  uniq [seq kv.1 | kv <- q'] ->
  (forall k, k \in [seq kv.1 | kv <- q'] -> k \notin [seq kv.1 | kv <- q]) ->
  update q q' = q ++ q'.
Proof.
rewrite /update; elim: q' q => [|[k v] q' IH] q /=; first by rewrite cats0.
case/andP=> notin uq fresh.
rewrite (setitem_fresh _ (fresh k (mem_head _ _))).
rewrite IH ?cat_rcons // => k' in_k'.
rewrite map_rcons mem_rcons inE negb_or; apply/andP; split; last first.
  by apply: fresh; rewrite inE in_k' orbT.
by apply: contraNneq notin => /= <-.
Qed.

Lemma per_frame_keys d (W : seq (seq nat)) :
  ind_with_window_inds (__init__ d W) = [seq kv.1 | kv <- per_frame d W].
Proof. by []. Qed.

Lemma key_inj d kv kv' :
  uniq [seq kv.1 | kv <- d] -> kv \in d -> kv' \in d -> kv.1 = kv'.1 ->
  kv = kv'.
Proof.
case: kv kv' => [k a] [k' a'] uq in_kv in_kv' /= eq_k.
have := lookup_uniq uq in_kv; rewrite eq_k (lookup_uniq uq in_kv').
by case=> ->.
Qed.

Lemma mem_per_frame_keys d (W : seq (seq nat)) kv :
  uniq [seq kv.1 | kv <- d] -> kv \in d ->
  (kv.1 \in [seq kv.1 | kv <- per_frame d W]) = (size kv.2 != size W).
Proof.
move=> uq in_kv; apply/mapP/idP => [[kv']|ne_sz]; last first.
  by exists kv => //; rewrite mem_filter ne_sz.
rewrite mem_filter => /andP[ne_sz in_kv'] eq_k.
by rewrite (key_inj uq in_kv in_kv' eq_k).
Qed.

Lemma uniq_keys_filter d (p : pred (key * seq T)) :
  uniq [seq kv.1 | kv <- d] -> uniq [seq kv.1 | kv <- d & p kv].
Proof. by apply: subseq_uniq; apply/map_subseq/filter_subseq. Qed.

(** [__getitem__] when every array with one entry per frame holds the
    frames of the window. *)
Lemma getitem_core (x0 : T) d (W : seq (seq nat)) (idx : int)
    (rows : key * seq T -> seq T) :
  uniq [seq kv.1 | kv <- d] -> in_range (size W) idx ->
  (forall kv, kv \in per_frame d W ->
     take_frames kv.2 (nth [::] W (position (size W) idx))
     = Return (rows kv)) ->
  __getitem__ (__init__ d W) idx
  = Return ([seq (kv.1, frames (rows kv)) | kv <- per_frame d W]
            ++ [seq (kv.1, entry (nth x0 kv.2 (position (size W) idx)))
               | kv <- per_window d W]).
Proof.
move=> uq in_idx rowsE; rewrite /__getitem__ per_frame_keys comprehension_map.
set pos := position (size W) idx.
set f1 := (X in comprehension X); set g1 := fun kv => (kv.1, frames (rows kv)).
have f1E kv : kv \in per_frame d W ->
    f1 kv = Return (if predT kv then Some (g1 kv) else None).
  move=> in_kv; have in_d : kv \in d.
    by move: in_kv; rewrite mem_filter => /andP[].
  rewrite /f1 /= (@lookup_uniq d kv.1 kv.2) -?surjective_pairing //=.
  by rewrite (getitem_in_range [::] in_idx) /= rowsE.
have uq1 : uniq [seq (g1 kv).1 | kv <- per_frame d W & predT kv].
  by rewrite filter_predT; apply: uniq_keys_filter.
have fresh1 kv : kv \in per_frame d W -> predT kv ->
    (g1 kv).1 \notin [seq kv.1 | kv <- [::] : dict key (item T)].
  by [].
rewrite (comprehension_filter (p := predT) (g := g1) f1E uq1 fresh1).
rewrite filter_predT cat0s.
rewrite and_then_Return.
set f2 := (X in comprehension X).
set p2 := fun kv : key * seq T => kv.1 \notin [seq kv.1 | kv <- per_frame d W].
set g2 := fun kv : key * seq T => (kv.1, entry (nth x0 kv.2 pos)).
have p2E kv : kv \in d -> p2 kv = (size kv.2 == size W).
  by move=> in_kv; rewrite /p2 mem_per_frame_keys // negbK.
have f2E kv : kv \in d -> f2 kv = Return (if p2 kv then Some (g2 kv) else None).
  move=> in_kv; rewrite /f2 -/(p2 kv) p2E //; case: eqP => //= eq_sz.
  by rewrite (getitem_in_range x0) eq_sz.
have filterE : [seq kv <- d | p2 kv] = per_window d W.
  exact: eq_in_filter.
have uq2 : uniq [seq (g2 kv).1 | kv <- d & p2 kv].
  exact: uniq_keys_filter.
have fresh2 kv : kv \in d -> p2 kv ->
    (g2 kv).1 \notin [seq kv.1 | kv <- [::] : dict key (item T)].
  by [].
rewrite [data _]/= (comprehension_filter (p := p2) (g := g2) f2E uq2 fresh2).
rewrite filterE cat0s.
rewrite and_then_Return update_fresh //.
  by rewrite -map_comp; apply: uniq_keys_filter.
move=> k; rewrite -!map_comp => /mapP[kv]; rewrite mem_filter.
by case/andP=> eq_sz in_kv ->; rewrite /= -/(p2 kv) p2E.
Qed.

End DatasetLemmas.

Section DatasetTheorems.
Import python dataset Windows MouseDataset Items.
Variable key : eqType.
Variable T : eqType.
Implicit Types (d : dict key (seq T)).

(** X5. With distinct keys, an index in range (a negative one counting
    from the end) and window indices inside every array that has one
    entry per frame, [__getitem__] returns a dictionary that lists first
    those arrays, each with the frames of window [idx], and then the
    arrays that have one entry per window, each with its entry [idx]; the
    keys keep their order within each group. *)
Theorem mouse_dataset_getitem_entries (x0 : T) d (W : seq (seq nat))
    (idx : int) :
  uniq [seq kv.1 | kv <- d] -> in_range (size W) idx ->
  all (fun kv : key * seq T =>
         all (fun j => j < size kv.2)%N (nth [::] W (position (size W) idx)))
      (per_frame d W) ->
  __getitem__ (__init__ d W) idx
  = Return ([seq (kv.1, frames [seq nth x0 kv.2 j
                               | j <- nth [::] W (position (size W) idx)])
            | kv <- per_frame d W]
            ++ [seq (kv.1, entry (nth x0 kv.2 (position (size W) idx)))
               | kv <- per_window d W]).
Proof.
move=> uq in_idx /allP in_frames; apply: getitem_core => // kv in_kv.
exact/take_frames_nth/in_frames.
Qed.

Lemma lookup_some (V : Type) (q : dict key V) k :
  k \in [seq kv.1 | kv <- q] -> exists v, lookup q k = Return v.
Proof.
rewrite /lookup; elim: q => [|[k' v] q IH] //=.
rewrite inE; case: (k' =P k) => [_ _|/eqP ne_k]; first by exists v.
by rewrite eq_sym (negbTE ne_k).
Qed.

(** X6. [__getitem__] at an index outside [-len, len) raises [IndexError]
    whenever the data set holds an array, and returns the empty
    dictionary when it holds none. *)
Theorem mouse_dataset_getitem_out_of_range d (W : seq (seq nat)) (idx : int) :
  ~~ in_range (size W) idx ->
  __getitem__ (__init__ d W) idx
  = if d is [::] then Return [::] else Raised IndexError.
Proof.
move=> out; case: d => [|kv d] //.
rewrite /__getitem__ per_frame_keys.
case E : (per_frame (kv :: d) W) => [|kv' s] /=.
  have : kv \notin per_frame (kv :: d) W by rewrite E.
  rewrite mem_filter mem_head andbT negbK => /eqP eq_sz.
  by rewrite getitem_out_of_range // eq_sz.
have [|a ->] := @lookup_some _ (kv :: d) kv'.1.
  apply/mapP; exists kv' => //.
  have : kv' \in per_frame (kv :: d) W by rewrite E mem_head.
  by rewrite mem_filter => /andP[].
by rewrite /= getitem_out_of_range.
Qed.

(** X7. On a data set whose window indices come from
    [get_window_indices] and whose arrays have one entry per frame or one
    per window, every index in range gives an item, without an
    [IndexError]: each array with one entry per frame contributes the same
    [window] consecutive frames, which carry one identifier and lie in
    the recording. *)
Theorem mouse_dataset_item_is_a_window (x0 : T) (ids : seq int)
    (stride window : nat) (W : seq (seq nat)) d (idx : int) :
  get_window_indices ids stride window = Return W ->
  uniq [seq kv.1 | kv <- d] ->
  all (fun kv : key * seq T =>
         (size kv.2 == size ids) || (size kv.2 == size W)) d ->
  in_range (size W) idx ->
  exists s,
    [/\ (s + window <= size ids)%N, constant_on ids s window
      & __getitem__ (__init__ d W) idx
        = Return ([seq (kv.1, frames (take window (drop s kv.2)))
                  | kv <- per_frame d W]
                  ++ [seq (kv.1, entry (nth x0 kv.2 (position (size W) idx)))
                     | kv <- per_window d W])].
Proof.
move=> eqW uq /allP sizes in_idx.
have in_W : nth [::] W (position (size W) idx) \in W.
  apply: mem_nth; case: idx in_idx => k //= lt_k.
  by rewrite ltn_subrL (leq_ltn_trans _ lt_k).
have [s [eq_wnd le_n const]] := get_window_indices_stretch eqW in_W.
exists s; split=> //; apply: getitem_core => // kv.
rewrite mem_filter => /andP[ne_sz /sizes]; rewrite (negbTE ne_sz) orbF.
move=> /eqP eq_sz.
by rewrite eq_wnd take_frames_iota // eq_sz.
Qed.

End DatasetTheorems.

Section WindowOfOne.
Import python dataset Windows MouseDataset Items.

Lemma telescope (c : nat -> nat) m :
  (forall i, (i < m)%N -> (c i <= c i.+1)%N) ->
  (c 0%N <= c m)%N
  /\ sumn [seq (c i.+1 - c i)%N | i <- iota 0 m] = (c m - c 0%N)%N.
Proof.
elim: m => [|m IH] mono; first by rewrite subnn.
have [le0 eq_sum] := IH (fun i lt_i => mono i (ltnW lt_i)).
have le_m := mono m (ltnSn m).
split; first exact: leq_trans le0 le_m.
rewrite -addn1 iotaD map_cat sumn_cat eq_sum /= add0n addn1 addn0.
by rewrite addnBA // addnBAC // subnAC addKn.
Qed.

Lemma size_windows_of_one (ids : seq int) (W : seq (seq nat)) :
  get_window_indices ids 1 1 = Return W -> size W = size ids.
Proof.
rewrite get_window_indicesE; case: ids => [|x0 r] //.
set ids := x0 :: r; set ch := boundaries ids.
case: ifP => // _ [<-]; rewrite size_flatten /shape /all_windows -/ch.
have /all_filterP-> : all (long_run ch 1) (iota 0 (size ch).-1).
  apply/allP => i; rewrite ltn_pred_size /long_run addn1.
  exact: boundaries_lt.
rewrite -map_comp.
transitivity (sumn [seq (nth 0 ch i.+1 - nth 0 ch i)%N
                   | i <- iota 0 (size ch).-1]).
  congr sumn; apply/eq_in_map => i; rewrite ltn_pred_size => lt_i /=.
  rewrite /run_windows size_map size_iota addn0 divn1 subn1 prednK //.
  by rewrite subn_gt0; apply: boundaries_lt.
have [|_ ->] := @telescope (nth 0%N ch) (size ch).-1.
  by move=> i lt_i; apply/ltnW/boundaries_lt; rewrite -ltn_predRL.
by rewrite nth_last /ch /boundaries /= last_cat /= subn0.
Qed.

Variable key : eqType.
Variable T : eqType.

(** X8. With [stride = 1] and [window = 1] there are as many windows as
    frames, so [MouseDataset] takes every array with one entry per frame
    for an array that is already windowed: an item then holds the bare
    frame [idx] of each array, not a window of one frame. *)
Theorem mouse_dataset_window_of_one (x0 : T) (ids : seq int)
    (W : seq (seq nat)) (d : dict key (seq T)) (idx : int) :
  get_window_indices ids 1 1 = Return W ->
  uniq [seq kv.1 | kv <- d] ->
  all (fun kv : key * seq T => size kv.2 == size ids) d ->
  in_range (size ids) idx ->
  __getitem__ (__init__ d W) idx
  = Return [seq (kv.1, entry (nth x0 kv.2 (position (size ids) idx)))
           | kv <- d].
Proof.
move=> /size_windows_of_one eq_sz uq sizes in_idx.
have no_frames : per_frame d W = [::].
  rewrite /per_frame -(filter_pred0 d); apply: eq_in_filter => kv.
  by move/(allP sizes); rewrite eq_sz => ->.
have all_windows : per_window d W = d by apply/all_filterP; rewrite eq_sz.
have rowsE (kv : key * seq T) : kv \in per_frame d W ->
    take_frames kv.2 (nth [::] W (position (size W) idx)) = Return [::].
  by rewrite no_frames.
have in_idx' : in_range (size W) idx by rewrite eq_sz.
by rewrite (getitem_core x0 uq in_idx' rowsE) no_frames all_windows eq_sz.
Qed.

End WindowOfOne.

(** ** Normalization of the root position *)

Section RootTheorems.
Variable R : realFieldType.
Variables batch dims : nat.
Implicit Types (root : 'M[R]_(batch, dims)) (arena_size : 'M[R]_(2, dims)).

(** X9. In exact arithmetic, on an arena whose two corners differ in
    every coordinate, [inv_normalize_root] undoes [normalize_root] and
    [normalize_root] undoes [inv_normalize_root]. *)
Theorem normalize_root_round_trip root arena_size :
  (forall j, dataset.upper arena_size j != dataset.lower arena_size j) ->
  dataset.inv_normalize_root (dataset.normalize_root root arena_size) arena_size
    = root
  /\ dataset.normalize_root (dataset.inv_normalize_root root arena_size)
       arena_size
     = root.
Proof.
move=> ne; have two_ne0 : (2 : R) != 0 by rewrite pnatr_eq0.
split; apply/matrixP => i j; rewrite !mxE.
  rewrite subrK mulrA mulrA mulVf // mul1r divfK ?subrK //.
  by rewrite subr_eq0.
rewrite addrK !mulrA divff // mul1r mulfK ?addrK //.
by rewrite subr_eq0.
Qed.

(** X10. In a coordinate in which the lower corner of the arena is below
    the upper one, the normalized root lies in [-1, 1] exactly when the
    root lies between the two corners. *)
Theorem normalize_root_range root arena_size i j :
  dataset.lower arena_size j < dataset.upper arena_size j ->
  (-1 <= dataset.normalize_root root arena_size i j <= 1)
  = (dataset.lower arena_size j <= root i j <= dataset.upper arena_size j).
Proof.
move=> lt_a; rewrite !mxE.
have D_gt0 : 0 < dataset.upper arena_size j - dataset.lower arena_size j.
  by rewrite subr_gt0.
have two_gt0 : 0 < (2 : R) by rewrite ltr0n.
rewrite lerBrDr addNr pmulr_lge0 ?invr_gt0 // pmulr_rge0 // subr_ge0.
rewrite lerBlDr ler_pdivrMr // -[1 + 1]/(2 : R) ler_pM2l //.
by rewrite lerD2r.
Qed.

End RootTheorems.

(** * Further properties of the estimators and networks *)

(** ** Forward passes of the adversarial networks *)

Section AdversaryTheorems.
Import python.
Variable R : realFieldType.
Notation tensor := (GradientReversal.tensor R).
Variable linear : seq nat -> nat -> nat -> bool -> tensor -> tensor.
Variable tanh : R -> R.
Variable nested : seq nat -> seq (nn.Sequential R) -> tensor -> outcome tensor.
Variable requires_grad : bool.

Let ReversalEnsemble_forward :=
  adversary.ReversalEnsemble_forward linear tanh nested requires_grad.

(** X11. A [ReversalEnsemble] built with [bound=False] ends each of its
    networks with the [None] passed in place of a [Tanh], so its
    [forward] raises [TypeError] on every input, whatever the parameters
    of its layers; so does the [forward] of a [GRScrubber] built with
    [bound=False], and the ensemble [LinearDisentangle] builds for
    [reversal="ensemble"] without [n_models] is such an ensemble. *)
Theorem unbounded_reversal_ensemble_raises
    (in_dim out_dim : nat) (alpha : R) (place : seq nat) (z : tensor)
    (bias do_detach : bool) (w : 'M[R]_(out_dim, in_dim))
    (b : 'rV[R]_out_dim) :
  [/\ ReversalEnsemble_forward place
        (nn.ReversalEnsemble R in_dim out_dim false) z
      = Raised TypeError,
      GRScrubber.forward linear tanh nested requires_grad
        (GRScrubber.__init__ in_dim out_dim alpha false) z
      = Raised TypeError
    & exists self grl ens,
        [/\ LinearDisentangle.__init__ bias "ensemble" alpha do_detach None w b
            = Ok self,
            LinearDisentangle.reversal self = Some [:: grl; ens]
          & ReversalEnsemble_forward place ens z = Raised TypeError]].
Proof.
split=> //.
by eexists; eexists; eexists; split; reflexivity.
Qed.

(** X12. The [forward] of a [GRScrubber] built with [bound=True] returns
    three predictions, each of them an image under [tanh]. *)
Theorem bounded_scrubber_returns
    (in_dim out_dim : nat) (alpha : R) (z : tensor) :
  exists b c d,
    GRScrubber.forward linear tanh nested requires_grad
      (GRScrubber.__init__ in_dim out_dim alpha true) z
    = Return [:: [seq tanh x | x <- b]; [seq tanh x | x <- c];
                 [seq tanh x | x <- d]].
Proof. by eexists; eexists; eexists; reflexivity. Qed.

Lemma each_MLP (in_dim out_dim : nat) (place : seq nat) (z : tensor)
    n i start :
  exists2 ys,
    adversary.each linear tanh nested requires_grad place i
      [seq nn.MLP R in_dim out_dim | _ <- iota start n] z = Return ys
  & size ys = n.
Proof.
elim: n i start => [|n IH] i start; first by exists [::].
have [ys eq_ys sz] := IH i.+1 start.+1.
rewrite [iota _ _]/= [map _ _]/= [adversary.each _ _ _ _ _ _ _ _]/=.
rewrite eq_ys /=.
by eexists; [reflexivity | rewrite /= sz].
Qed.

(** X13. The [forward] of an [MLPEnsemble] returns for every input, with
    one prediction for each of its [n_models] networks. *)
Theorem mlp_ensemble_returns
    (in_dim out_dim n_models : nat) (place : seq nat) (z : tensor) :
  exists2 ys,
    adversary.MLPEnsemble_forward linear tanh nested requires_grad place
      (nn.MLPEnsemble R in_dim out_dim n_models) z = Return ys
  & size ys = n_models.
Proof. exact: each_MLP. Qed.

End AdversaryTheorems.

(** ** The [update] flag of the discriminant tracker *)

Section DiscriminantFlag.
Variable R : realFieldType.
Variable label : eqType.
Variable logdet : torch.mat R -> torch.fl R.
Variable linalg_solve : torch.mat R -> torch.mat R -> result (torch.mat R).
Implicit Types (self : QDF.t R label) (x : torch.mat R) (y : seq label).
Implicit Types (p : QDF.params R).

Lemma scores_stats x p q :
  Stats.of_params p = Stats.of_params q ->
  QDF.scores logdet linalg_solve x p = QDF.scores logdet linalg_solve x q.
Proof.
case: p q => [? ? ? ? ? ? ? ? ? ?] [? ? ? ? ? ? ? ? ? ?].
by case=> -> -> -> -> -> -> -> ->.
Qed.

Lemma adapt_stats upd (delta lamdiff : R) lla llb p :
  Stats.of_params (QDF.adapt upd delta lamdiff lla llb p) = Stats.of_params p.
Proof. by rewrite /QDF.adapt; case: ifP => // _; case: ifP. Qed.

Lemma loss_label_same x y u1 u2 self1 self2 ll lbl :
  Stats.same self1 self2 ->
  let r1 := QDF.loss_label logdet linalg_solve x y u1 self1 ll lbl in
  let r2 := QDF.loss_label logdet linalg_solve x y u2 self2 ll lbl in
  Stats.same r1.1 r2.1 /\ r1.2 = r2.2.
Proof.
move=> same /=; rewrite /QDF.loss_label; have := same lbl.
case: (QDF.bufs self1 lbl) => [p|]; case: (QDF.bufs self2 lbl) => [q|] //=.
move/Some_inj => eq_pq; rewrite (scores_stats x eq_pq).
case: (QDF.scores _ _ _ _) => [[[[lla0 lla1] llb0] llb1]|e] //=.
split=> // l /=; rewrite /QDF.setattrs; case: ifP => _ //=.
by rewrite !adapt_stats eq_pq.
Qed.

Lemma loss_loop_same x y u1 u2 ls self1 self2 ll :
  Stats.same self1 self2 ->
  let r1 := QDF.loss_loop logdet linalg_solve x y u1 self1 ll ls in
  let r2 := QDF.loss_loop logdet linalg_solve x y u2 self2 ll ls in
  Stats.same r1.1 r2.1 /\ r1.2 = r2.2.
Proof.
elim: ls self1 self2 ll => [|l ls IH] self1 self2 ll same //=.
have [] := @loss_label_same x y u1 u2 self1 self2 ll l same.
case: (QDF.loss_label _ _ _ _ u1 _ _ _) => s1 r1.
case: (QDF.loss_label _ _ _ _ u2 _ _ _) => s2 r2 /= same' <-.
by case: r1 => [ll1|e] //=; apply: IH.
Qed.

Lemma setattrs_same (b : label -> option (QDF.params R)) l p :
  b l = Some p -> QDF.setattrs b l p =1 b.
Proof. by move=> eq_p l'; rewrite /QDF.setattrs; case: eqP => // ->. Qed.

Lemma loss_loop_read_only x y ls self ll :
  let self' := (QDF.loss_loop logdet linalg_solve x y false self ll ls).1 in
  [/\ QDF.bufs self' =1 QDF.bufs self, QDF.classes self' = QDF.classes self,
      QDF.delta self' = QDF.delta self & QDF.lamdiff self' = QDF.lamdiff self].
Proof.
elim: ls self ll => [|l ls IH] self ll //=.
rewrite /QDF.loss_label.
case E : (QDF.bufs self l) => [p|] //=.
case: (QDF.scores _ _ _ _) => [[[[lla0 lla1] llb0] llb1]|e] //=.
set self1 := QDF.Build _ _ _ _ _; set ll1 := torch.fadd _ _.
have [H1 H2 H3 H4] := IH self1 ll1.
split=> // l'; rewrite H1 /self1 /=.
exact: setattrs_same.
Qed.

(** X14. [QuadraticDiscriminantFilter.evaluate_loss] returns the same
    loss, or raises the same exception, with [update=True] and with
    [update=False]; with [update=False] it leaves every buffer, the class
    list and the two update parameters as they were. *)
Theorem evaluate_loss_update_flag self x y :
  let on := QDF.evaluate_loss logdet linalg_solve self x y true in
  let off := QDF.evaluate_loss logdet linalg_solve self x y false in
  [/\ on.2 = off.2,
      forall l, QDF.bufs off.1 l = QDF.bufs self l,
      QDF.classes off.1 = QDF.classes self
    & QDF.delta off.1 = QDF.delta self
      /\ QDF.lamdiff off.1 = QDF.lamdiff self].
Proof.
rewrite /QDF.evaluate_loss /=.
have [] := @loss_loop_same x y true false (QDF.classes self) self self
             (torch.Fin 0) (fun=> erefl).
have := @loss_loop_read_only x y (QDF.classes self) self (torch.Fin 0).
case: (QDF.loss_loop _ _ _ _ true _ _ _) => s1 r1.
case: (QDF.loss_loop _ _ _ _ false _ _ _) => s2 r2 /= [H1 H2 H3 H4] _ ->.
by split.
Qed.

End DiscriminantFlag.

(** ** The linear decoupler: the projection applied twice, and the
    [do_detach] flag *)

Section ProjectionTwice.
Variable R : realFieldType.
Variables in_dim out_dim batch : nat.

(** X15. On a decoder without bias whose Gram matrix is invertible,
    [LinearProjection.forward] run on the null-space latent it has
    returned gives that latent back, together with a zero prediction: the
    projection is idempotent. *)
Theorem projection_idempotent
    (w : 'M[R]_(out_dim, in_dim)) (b : 'rV[R]_out_dim)
    (z : 'M[R]_(batch, in_dim)) :
  w *m w^T \in unitmx ->
  let self := LinearProjection.__init__ false w b in
  exists2 o, LinearProjection.forward self z = Ok o
           & LinearProjection.forward self (LinearProjection.z_null o)
             = Ok (LinearProjection.Out 0 (LinearProjection.z_null o)).
Proof.
move=> Hu self; rewrite /LinearProjection.forward solve_unit //.
eexists; first by reflexivity.
set zn := LinearProjection.z_null _.
have zn_w : zn *m w^T = 0.
  have := @residual_weight R in_dim out_dim batch (nn.BuildLinear w None) z Hu.
  by rewrite /nn.bias_rows [nn.bias _]/= oppr0.
have dec0 : nn.Linear_forward (LinearProjection.decoder self) zn = 0.
  rewrite /nn.Linear_forward [nn.weight _]/= zn_w /nn.bias_rows.
  by rewrite [nn.bias _]/= addr0.
rewrite dec0 [nn.weight _]/= solve_unit // /bind.
congr (Ok (LinearProjection.Out _ _)).
by rewrite (trmx0 R) mulmx0 (trmx0 R) mul0mx subr0.
Qed.

End ProjectionTwice.

Section DetachFlag.
Variable R : realFieldType.
Variables in_dim out_dim batch : nat.
Variable gr_out : Type.
Variable run :
  nn.Sequential R -> forall batch, 'M[R]_(batch, in_dim) -> gr_out.

(** X17. [LinearDisentangle] stores [do_detach] and never reads it: two
    instances that differ only in that flag are both constructed, and
    their [forward] agrees on every batch, in the values returned and in
    the exception raised. *)
Theorem do_detach_is_never_read
    (bias : bool) (reversal : string) (alpha : R) (n_models : option nat)
    (w : 'M[R]_(out_dim, in_dim)) (b : 'rV[R]_out_dim)
    (z : 'M[R]_(batch, in_dim)) :
  exists s1 s2,
    [/\ LinearDisentangle.__init__ bias reversal alpha true n_models w b
          = Ok s1,
        LinearDisentangle.__init__ bias reversal alpha false n_models w b
          = Ok s2
      & LinearDisentangle.forward run s1 z
        = LinearDisentangle.forward run s2 z].
Proof. by eexists; eexists; split; reflexivity. Qed.

End DetachFlag.

(** ** The normal-equation matrices of the least-squares tracker *)

Section GramSymmetry.
Variable R : realFieldType.
Implicit Types (S : torch.mat R) (self : MALS.t R).












End GramSymmetry.

(** ** The properties above at concrete inputs *)

(** X2 on the ten frames of [DataExamples]: the window of the frames 6
    and 7. *)
Lemma get_window_indices_member_witness :
  [:: 6; 7]%N \in DataExamples.windows <->
  exists a k,
    [/\ Windows.run_start DataExamples.ids a,
        Windows.constant_on DataExamples.ids a (k * 2 + 2),
        (a + k * 2 + 2 <= size DataExamples.ids)%N
      & [:: 6; 7]%N = iota (a + k * 2) 2].
Proof.
by apply: (@get_window_indices_member DataExamples.ids 2 2); vm_compute.
Defined.

(** X3 on five frames of the identifier 1. *)
Lemma get_window_indices_one_id_witness :
  dataset.get_window_indices (nseq 5 1) 2 2
  = python.Return [seq iota (k * 2) 2 | k <- iota 0 ((5 - 2) %/ 2).+1].
Proof. exact: (@get_window_indices_one_id 1 5 2 2). Defined.

(** X4 on the ten frames of [DataExamples]. *)
Lemma get_window_indices_sorted_witness :
  sorted ltn [seq head 0%N wnd | wnd <- DataExamples.windows]
  /\ uniq DataExamples.windows.
Proof.
by apply: (@get_window_indices_sorted DataExamples.ids 2 2); vm_compute.
Defined.

(** X5 on the data set of [DataExamples], at the item 2. *)
Lemma mouse_dataset_getitem_entries_witness :
  MouseDataset.__getitem__
    (MouseDataset.__init__ DataExamples.data DataExamples.windows) 2
  = python.Return [:: (0%N, MouseDataset.frames [:: 16; 17]%N);
               (1%N, MouseDataset.entry 102%N)].
Proof.
exact: (@mouse_dataset_getitem_entries _ _ 0%N DataExamples.data
          DataExamples.windows 2).
Defined.

(** X6 on the data set of [DataExamples], at the index 4. *)
Lemma mouse_dataset_getitem_out_of_range_witness :
  MouseDataset.__getitem__
    (MouseDataset.__init__ DataExamples.data DataExamples.windows) 4
  = python.Raised python.IndexError.
Proof.
exact: (@mouse_dataset_getitem_out_of_range _ _ DataExamples.data
          DataExamples.windows 4).
Defined.

(** X7 on the data set of [DataExamples], at the last item. *)
Lemma mouse_dataset_item_is_a_window_witness :
  exists s,
    [/\ (s + 2 <= size DataExamples.ids)%N,
        Windows.constant_on DataExamples.ids s 2
      & MouseDataset.__getitem__
          (MouseDataset.__init__ DataExamples.data DataExamples.windows) (-1)
        = python.Return
            ([seq (kv.1, MouseDataset.frames (take 2 (drop s kv.2)))
             | kv <- Items.per_frame DataExamples.data DataExamples.windows]
             ++ [seq (kv.1, MouseDataset.entry
                              (nth 0%N kv.2 (Items.position 4 (-1))))
                | kv <- Items.per_window DataExamples.data
                                         DataExamples.windows])].
Proof.
by apply: (@mouse_dataset_item_is_a_window _ _ 0%N DataExamples.ids 2 2
             DataExamples.windows DataExamples.data (-1)); vm_compute.
Defined.

(** X8 on three frames, at the item 1. *)
Lemma mouse_dataset_window_of_one_witness :
  MouseDataset.__getitem__
    (MouseDataset.__init__ DataExamples.data3 [:: [:: 0]; [:: 1]; [:: 2]]%N) 1
  = python.Return [:: (0%N, MouseDataset.entry 11%N)].
Proof.
exact: (@mouse_dataset_window_of_one _ _ 0%N DataExamples.ids3
          [:: [:: 0]; [:: 1]; [:: 2]]%N DataExamples.data3 1).
Defined.

(** X9 on the arena and the root of [DataExamples]. *)
Lemma normalize_root_round_trip_witness :
  dataset.inv_normalize_root
    (dataset.normalize_root DataExamples.root DataExamples.arena)
    DataExamples.arena = DataExamples.root
  /\ dataset.normalize_root
       (dataset.inv_normalize_root DataExamples.root DataExamples.arena)
       DataExamples.arena = DataExamples.root.
Proof.
apply: normalize_root_round_trip => j.
by rewrite /dataset.upper /dataset.lower !mxE eqr_nat.
Defined.

(** X10 on the arena and the root of [DataExamples]. *)
Lemma normalize_root_range_witness :
  (-1 <= dataset.normalize_root DataExamples.root DataExamples.arena ord0 ord0
      <= 1)
  = (dataset.lower DataExamples.arena ord0 <= DataExamples.root ord0 ord0
       <= dataset.upper DataExamples.arena ord0).
Proof.
apply: normalize_root_range.
by rewrite /dataset.upper /dataset.lower !mxE ltr_nat.
Defined.

(** X15 on the 1 x 1 decoder with weight 1 over the rationals. *)
Lemma projection_idempotent_witness :
  let self := LinearProjection.__init__ false (1%:M : 'M[rat]_1) 0 in
  exists2 o, LinearProjection.forward self (1%:M : 'M[rat]_(1, 1)) = Ok o
           & LinearProjection.forward self (LinearProjection.z_null o)
             = Ok (LinearProjection.Out 0 (LinearProjection.z_null o)).
Proof.
apply: projection_idempotent.
by rewrite trmx1 mulmx1 unitmx1.
Defined.

